(** * Overlapping keyframe curves: a shallow embedding of [pyimpl.py]

    The program adds two piecewise-linear animation curves.  A curve is a
    Python list of [Keyframe] objects; [addKeyframes] mutates the objects of
    both lists and then extends and sorts the first list.

    Numbers.  The fields of a [Keyframe] are Python floats.  They are
    modelled as exact rationals ([Q]); equality of numbers is [Qeq] ([==]),
    which is what Python's [==] decides on numbers.  Rounding, infinities and
    NaN are outside this model.

    Objects.  Keyframes are mutable objects reached through references, and
    the list returned by [findOverlap] holds the very objects of its first
    argument.  The model therefore has a store ([heap]) from references to
    field values, and Python lists are lists of references. *)

From Stdlib Require Import List Bool Arith Lia.
From Stdlib Require Import QArith Qfield Lqa.
From Stdlib Require Import Permutation.
Import ListNotations.

Open Scope Q_scope.

(** ** Data model *)

(** [@dataclass class Keyframe: frame: float; value: float] *)
Record Keyframe : Type := mkKeyframe { frame : Q; value : Q }.

(** Object identity of a [Keyframe]. *)
Definition ref : Type := nat.

(** The store: the current fields of every object. *)
Definition heap : Type := ref -> Keyframe.

(** [key.value += v] on the object [r]. *)
Definition add_value (h : heap) (r : ref) (v : Q) : heap :=
  fun r' =>
    if Nat.eqb r' r
    then mkKeyframe (frame (h r)) (value (h r) + v)
    else h r'.

(** Exceptions that leave the functions of the module. *)
Inductive exn : Type :=
| ValueError   (* raised by [findOverlap] *)
| TypeError.   (* unpacking [None] into [inv1, inv2] *)

Inductive result (A : Type) : Type :=
| Ok (a : A)
| Raise (e : exn).
Arguments Ok {A} a.
Arguments Raise {A} e.

Definition bind {A B : Type} (m : result A) (f : A -> result B) : result B :=
  match m with
  | Ok a => f a
  | Raise e => Raise e
  end.

Notation "x <- m ;; k" := (bind m (fun x => k))
  (at level 61, m at next level, right associativity).

(** ** Comparisons and division on numbers *)

(** [x < y] *)
Definition Qltb (x y : Q) : bool :=
  match x ?= y with Lt => true | _ => false end.

(** [x > y] *)
Definition Qgtb (x y : Q) : bool := Qltb y x.

(** [x / y], which raises [ZeroDivisionError] ([None]) when [y == 0]. *)
Definition truediv (x y : Q) : option Q :=
  if Qeq_bool y 0 then None else Some (x / y).

(** ** findOverlap *)

(** The loop [for key1 in reversed(keyList1)], over the reversed list [rk],
    with the loop variables [overlapping] and [overlappingKeyList].  [f2] is
    [keyList2[0].frame]. *)
Fixpoint findOverlap_loop (h : heap) (f2 : Q) (rk : list ref)
         (overlapping : bool) (overlappingKeyList : list ref) : list ref :=
  match rk with
  | [] => overlappingKeyList
  | key1 :: rk' =>
      if Qgtb (frame (h key1)) f2
      then findOverlap_loop h f2 rk' true (overlappingKeyList ++ [key1])
      else if overlapping
           then overlappingKeyList ++ [key1]   (* append, then break *)
           else overlappingKeyList             (* break *)
  end.

Definition findOverlap (h : heap) (keyList1 keyList2 : list ref)
  : result (list ref) :=
  match keyList1, keyList2 with
  | [], _ => Ok []
  | _, [] => Ok []
  | k1 :: _, k2 :: _ =>
      if Qgtb (frame (h k1)) (frame (h k2))
      then Raise ValueError
      else Ok (rev (findOverlap_loop h (frame (h k2)) (rev keyList1) false []))
  end.

(** ** getValue *)

(** The slope [m], with the [except ZeroDivisionError: m = 0] handler. *)
Definition slope (key1 key2 : Keyframe) : Q :=
  match truediv (value key2 - value key1) (frame key2 - frame key1) with
  | Some m => m
  | None => 0
  end.

Definition getValue (key1 key2 : Keyframe) (fr : Q) : Q :=
  let m := slope key1 key2 in
  let c := value key1 - m * frame key1 in
  (m * fr) + c.

(** ** interval *)

(** What [interval] hands back to its caller. *)
Inductive interval_result : Type :=
| NonePair                 (* [(None, None)] *)
| KeyPair (inv1 inv2 : ref)
| NoneValue.               (* the function body ends without [return] *)

(** [for i in range(len(keyList) - 1)]: the first adjacent pair with
    [keyList[i].frame <= frame <= keyList[i+1].frame]. *)
Fixpoint interval_loop (h : heap) (keyList : list ref) (fr : Q)
  : option (ref * ref) :=
  match keyList with
  | ki :: ((ki1 :: _) as tl) =>
      if Qle_bool (frame (h ki)) fr && Qle_bool fr (frame (h ki1))
      then Some (ki, ki1)
      else interval_loop h tl fr
  | _ => None
  end.

Definition interval (h : heap) (keyList : list ref) (fr : Q)
  : interval_result :=
  match keyList with
  | [] => NonePair
  | k0 :: _ =>
      if Qgtb (frame (h k0)) fr then KeyPair k0 k0
      else
        let kl := last keyList k0 in
        if Qltb (frame (h kl)) fr then KeyPair kl kl
        else match interval_loop h keyList fr with
             | Some (a, b) => KeyPair a b
             | None => NoneValue
             end
  end.

(** ** addKeyframes *)

(** The two interpolation loops have one shape:
    [for key in keys: inv1, inv2 = interval(keyList, key.frame); ...].
    The new [Keyframe] objects they build are only read afterwards, so they
    are kept as plain records. *)
Fixpoint interpolate (h : heap) (keyList keys : list ref)
  : result (list Keyframe) :=
  match keys with
  | [] => Ok []
  | key :: keys' =>
      match interval h keyList (frame (h key)) with
      | NoneValue => Raise TypeError
      | NonePair => interpolate h keyList keys'          (* continue *)
      | KeyPair inv1 inv2 =>
          rest <- interpolate h keyList keys' ;;
          Ok (mkKeyframe (frame (h key))
                         (getValue (h inv1) (h inv2) (frame (h key))) :: rest)
      end
  end.

(** [for key, interp in zip(keys, interps): key.value += interp.value] *)
Fixpoint add_values (h : heap) (keys : list ref) (interps : list Keyframe)
  : heap :=
  match keys, interps with
  | key :: keys', interp :: interps' =>
      add_values (add_value h key (value interp)) keys' interps'
  | _, _ => h
  end.

(** [list.sort(key=lambda keyframe: keyframe.frame)].  Python's sort is
    stable, and a stable sort has one possible result; it is computed here by
    a stable insertion sort. *)
Fixpoint insert_key (h : heap) (k : ref) (l : list ref) : list ref :=
  match l with
  | [] => [k]
  | y :: l' =>
      if Qle_bool (frame (h k)) (frame (h y))
      then k :: y :: l'
      else y :: insert_key h k l'
  end.

Definition sort_by_frame (h : heap) (l : list ref) : list ref :=
  fold_right (insert_key h) [] l.

(** The state [addKeyframes] works on: the store and its two list
    arguments (two different list objects). *)
Record state : Type := mkState {
  st_heap : heap;
  insertedKeys : list ref;
  nextKeys : list ref
}.

Inductive outcome : Type :=
| Returned
| Raised (e : exn).

(** The interpolation part of [addKeyframes] (lines 109-123), which only
    reads: the overlap and the two lists of interpolated keyframes. *)
Definition interpolated (st : state)
  : result (list ref * list Keyframe * list Keyframe) :=
  let h := st_heap st in
  keysOverlapping <- findOverlap h (insertedKeys st) (nextKeys st) ;;
  nextKeysInterpolatedValues <-
    interpolate h keysOverlapping (nextKeys st) ;;
  insertedKeysInterpolatedValues <-
    interpolate h (nextKeys st) keysOverlapping ;;
  Ok (keysOverlapping, insertedKeysInterpolatedValues,
      nextKeysInterpolatedValues).

(** [addKeyframes(insertedKeys, nextKeys)]: how the call ends, and the state
    it leaves (at the [raise], when it raises). *)
Definition addKeyframes (st : state) : outcome * state :=
  match interpolated st with
  | Raise e => (Raised e, st)
  | Ok (keysOverlapping, insertedKeysInterpolatedValues,
        nextKeysInterpolatedValues) =>
      let h1 := add_values (st_heap st) keysOverlapping
                           insertedKeysInterpolatedValues in
      let h2 := add_values h1 (nextKeys st) nextKeysInterpolatedValues in
      let extended := insertedKeys st ++ nextKeys st in
      (Returned, mkState h2 (sort_by_frame h2 extended) (nextKeys st))
  end.

(** ** Curves and their values *)

(** The samples of a list, as [(frame, value)] records. *)
Definition curve (h : heap) (l : list ref) : list Keyframe := map h l.

(** The curve that [addKeyframes] leaves in [insertedKeys]. *)
Definition merged_curve (st : state) : list Keyframe :=
  curve (st_heap (snd (addKeyframes st))) (insertedKeys (snd (addKeyframes st))).

(** Equality of samples and of curves as Python compares them: the
    generated [__eq__] of the dataclass, and [==] on lists. *)
Definition Keyframe_eqb (a b : Keyframe) : bool :=
  Qeq_bool (frame a) (frame b) && Qeq_bool (value a) (value b).

Fixpoint curve_eqb (c1 c2 : list Keyframe) : bool :=
  match c1, c2 with
  | [], [] => true
  | a :: c1', b :: c2' => Keyframe_eqb a b && curve_eqb c1' c2'
  | _, _ => false
  end.

(** Frames never decrease along the list. *)
Fixpoint is_sorted (h : heap) (l : list ref) : bool :=
  match l with
  | k1 :: ((k2 :: _) as tl) =>
      Qle_bool (frame (h k1)) (frame (h k2)) && is_sorted h tl
  | _ => true
  end.

(** Frames strictly increase along the list: sorted, and no two samples at
    one time. *)
Fixpoint is_ascending (h : heap) (l : list ref) : bool :=
  match l with
  | k1 :: ((k2 :: _) as tl) =>
      Qltb (frame (h k1)) (frame (h k2)) && is_ascending h tl
  | _ => true
  end.

(** The frames from the first to the last key of a list. *)
Definition in_domain (h : heap) (keyList : list ref) (t : Q) : Prop :=
  match keyList with
  | [] => False
  | k0 :: _ => frame (h k0) <= t /\ t <= frame (h (last keyList k0))
  end.

(** The value of a curve at a frame, as [addKeyframes] reads it:
    [getValue(inv1, inv2, frame)] for [inv1, inv2 = interval(keyList, frame)]. *)
Definition curveValue (h : heap) (keyList : list ref) (fr : Q) : option Q :=
  match interval h keyList fr with
  | KeyPair inv1 inv2 => Some (getValue (h inv1) (h inv2) fr)
  | _ => None
  end.

(** The value of a curve at a frame: what [interval] and [getValue] give,
    and for a list of one keyframe, where [interval] has no answer at the
    keyframe's own frame, the value of that keyframe. *)
Definition original_value (h : heap) (keyList : list ref) (t v : Q) : Prop :=
  curveValue h keyList t = Some v \/
  exists k, keyList = [k] /\ frame (h k) == t /\ v = value (h k).

(** In the store [h'] the key [k] holds the sum of the values that the
    curves [A] and [B] had at its frame in the store [h]. *)
Definition sum_at (h : heap) (A B : list ref) (h' : heap) (k : ref) : Prop :=
  exists va vb,
    original_value h A (frame (h k)) va /\
    original_value h B (frame (h k)) vb /\
    value (h' k) == va + vb.

(** The curve [merged], read in the store [h'] at the frame of [k], has the
    sum of the values that [A] and [B] had at that frame in the store [h]. *)
Definition sum_read (h : heap) (A B : list ref) (h' : heap)
           (merged : list ref) (k : ref) : Prop :=
  exists va vb v,
    original_value h A (frame (h k)) va /\
    original_value h B (frame (h k)) vb /\
    curveValue h' merged (frame (h k)) = Some v /\
    v == va + vb.

(** ** Concrete inputs *)

(** A store whose objects [0, 1, ...] are the given keyframes. *)
Definition heap_of (objs : list Keyframe) : heap :=
  fun r => nth r objs (mkKeyframe 0 0).

(** The input that [main] builds: [origKeys] from [vals], and [newKeys],
    the same keyframes moved by [delta = 9]. *)
Definition vals : list (Q * Q) := [(0, 0); (15, 5); (18, 5); (33, 0)].

Definition delta : Q := 9.

Definition origKeys : list Keyframe :=
  map (fun kv => mkKeyframe (fst kv) (snd kv)) vals.

Definition newKeys : list Keyframe :=
  map (fun key => mkKeyframe (frame key + delta) (value key)) origKeys.

Definition demo_objs : list Keyframe := origKeys ++ newKeys.

Definition demo_state : state :=
  mkState (heap_of demo_objs) [0; 1; 2; 3]%nat [4; 5; 6; 7]%nat.

(** The same keyframes with the two lists exchanged. *)
Definition swapped_state : state :=
  mkState (heap_of demo_objs) [4; 5; 6; 7]%nat [0; 1; 2; 3]%nat.

(** The result that the specification's scenario expects for [demo_state],
    and the one the program produces. *)
Definition scenario_curve : list Keyframe :=
  [ mkKeyframe 0 0; mkKeyframe 9 3; mkKeyframe 15 7; mkKeyframe 18 8;
    mkKeyframe 24 8; mkKeyframe 27 7; mkKeyframe 33 1.2; mkKeyframe 42 0 ].

Definition demo_curve : list Keyframe :=
  [ mkKeyframe 0 0; mkKeyframe 9 3; mkKeyframe 15 7; mkKeyframe 18 8;
    mkKeyframe 24 8; mkKeyframe 27 7; mkKeyframe 33 3; mkKeyframe 42 0 ].

(** An input on which the second interpolation loop asks a list of one
    keyframe for the interval at that keyframe's own frame. *)
Definition single_next_state : state :=
  mkState (heap_of [mkKeyframe 5 1; mkKeyframe 6 2; mkKeyframe 5 0])
          [0; 1]%nat [2]%nat.

(** Two curves that meet in one frame: the first ends where the second
    starts. *)
Definition touching_state : state :=
  mkState (heap_of [mkKeyframe 0 0; mkKeyframe 5 1;
                    mkKeyframe 5 3; mkKeyframe 10 2])
          [0; 1]%nat [2; 3]%nat.

(** * Properties *)

(** ** Numbers *)

Lemma Qltb_lt (x y : Q) : Qltb x y = true <-> x < y.
Proof.
  unfold Qltb. rewrite Qlt_alt.
  destruct (x ?= y); split; congruence.
Qed.

Lemma Qltb_ge (x y : Q) : Qltb x y = false <-> y <= x.
Proof.
  rewrite <- not_true_iff_false, Qltb_lt. split.
  - apply Qnot_lt_le.
  - apply Qle_not_lt.
Qed.

Lemma Qgtb_gt (x y : Q) : Qgtb x y = true <-> y < x.
Proof. apply Qltb_lt. Qed.

Lemma Qgtb_le (x y : Q) : Qgtb x y = false <-> x <= y.
Proof. apply Qltb_ge. Qed.

Lemma Qle_bool_gt (x y : Q) : Qle_bool x y = false <-> y < x.
Proof.
  rewrite <- not_true_iff_false, Qle_bool_iff. split.
  - apply Qnot_le_lt.
  - apply Qlt_not_le.
Qed.

Lemma truediv_None (x y : Q) : truediv x y = None <-> y == 0.
Proof.
  unfold truediv. destruct (Qeq_bool y 0) eqn:E.
  - apply Qeq_bool_iff in E. tauto.
  - apply Qeq_bool_neq in E. split; [discriminate | tauto].
Qed.

(** ** getValue *)

Lemma slope_equal_frames (k1 k2 : Keyframe) :
  frame k1 == frame k2 -> slope k1 k2 = 0.
Proof.
  intros E. unfold slope.
  replace (truediv (value k2 - value k1) (frame k2 - frame k1)) with (@None Q);
    [reflexivity |].
  symmetry. apply truediv_None. rewrite E. ring.
Qed.

Lemma slope_distinct_frames (k1 k2 : Keyframe) :
  ~ frame k1 == frame k2 ->
  slope k1 k2 = (value k2 - value k1) / (frame k2 - frame k1).
Proof.
  intros N. unfold slope, truediv.
  destruct (Qeq_bool (frame k2 - frame k1) 0) eqn:E; [| reflexivity].
  apply Qeq_bool_iff in E. exfalso. apply N. lra.
Qed.

(** At the frame of its first keyframe the line has that keyframe's value. *)
Lemma getValue_left (k1 k2 : Keyframe) (t : Q) :
  frame k1 == t -> getValue k1 k2 t == value k1.
Proof.
  intros E. unfold getValue. rewrite <- E. ring.
Qed.

(** At the frame of its second keyframe the line has that keyframe's value,
    when the two frames differ. *)
Lemma getValue_right (k1 k2 : Keyframe) (t : Q) :
  frame k2 == t -> ~ frame k1 == frame k2 ->
  getValue k1 k2 t == value k2.
Proof.
  intros E N. unfold getValue. rewrite (slope_distinct_frames _ _ N).
  rewrite <- E. field. intros Z. apply N. lra.
Qed.

(** C8.  For two keyframes at one frame, the division in [getValue] raises
    [ZeroDivisionError], the handler sets the slope to 0, and the function
    returns the first keyframe's value, at every query frame. *)
Theorem getValue_zero_width (k1 k2 : Keyframe) (t : Q) :
  frame k1 == frame k2 ->
  truediv (value k2 - value k1) (frame k2 - frame k1) = None /\
  slope k1 k2 = 0 /\
  getValue k1 k2 t == value k1.
Proof.
  intros E. split; [| split].
  - apply truediv_None. rewrite E. ring.
  - apply slope_equal_frames, E.
  - unfold getValue. rewrite (slope_equal_frames _ _ E). ring.
Qed.

Lemma getValue_zero_width_witness :
  frame (mkKeyframe 33 5) == frame (mkKeyframe 33 2) /\
  getValue (mkKeyframe 33 5) (mkKeyframe 33 2) 42 == 5.
Proof.
  split.
  - reflexivity.
  - apply (getValue_zero_width (mkKeyframe 33 5) (mkKeyframe 33 2) 42).
    reflexivity.
Defined.

(** ** The order precondition and the two ways to raise *)

Lemma findOverlap_raises (h : heap) (l1 l2 : list ref) (e : exn) :
  findOverlap h l1 l2 = Raise e <->
  e = ValueError /\
  exists k1 l1' k2 l2',
    l1 = k1 :: l1' /\ l2 = k2 :: l2' /\ frame (h k2) < frame (h k1).
Proof.
  unfold findOverlap. split.
  - destruct l1 as [| k1 l1']; [discriminate |].
    destruct l2 as [| k2 l2']; [discriminate |].
    destruct (Qgtb (frame (h k1)) (frame (h k2))) eqn:G; [| discriminate].
    intros E. injection E as <-. split; [reflexivity |].
    exists k1, l1', k2, l2'. apply Qgtb_gt in G. auto.
  - intros [-> (k1 & l1' & k2 & l2' & -> & -> & G)].
    apply Qgtb_gt in G. rewrite G. reflexivity.
Qed.

Lemma interpolate_raises (h : heap) (keyList keys : list ref) (e : exn) :
  interpolate h keyList keys = Raise e -> e = TypeError.
Proof.
  induction keys as [| key keys IH]; simpl; [discriminate |].
  destruct (interval h keyList (frame (h key))).
  - exact IH.
  - destruct (interpolate h keyList keys); simpl.
    + discriminate.
    + intros E. apply IH. exact E.
  - intros E. injection E as <-. reflexivity.
Qed.

Lemma interpolate_no_keyList (h : heap) (keys : list ref) :
  interpolate h [] keys = Ok [].
Proof.
  induction keys as [| key keys IH]; simpl; [reflexivity | exact IH].
Qed.

(** [addKeyframes] raises [ValueError] exactly when [findOverlap] does. *)
Lemma addKeyframes_ValueError (st : state) :
  fst (addKeyframes st) = Raised ValueError <->
  findOverlap (st_heap st) (insertedKeys st) (nextKeys st) = Raise ValueError.
Proof.
  unfold addKeyframes, interpolated.
  destruct (findOverlap (st_heap st) (insertedKeys st) (nextKeys st))
    as [ov | e] eqn:F; simpl.
  - split; [| discriminate].
    destruct (interpolate (st_heap st) ov (nextKeys st)) as [nv | e1] eqn:I1;
      simpl.
    + destruct (interpolate (st_heap st) (nextKeys st) ov) as [iv | e2] eqn:I2;
        simpl; [discriminate |].
      apply interpolate_raises in I2. subst e2. discriminate.
    + apply interpolate_raises in I1. subst e1. discriminate.
  - split; intros E; injection E as ->; reflexivity.
Qed.

(** [addKeyframes] changes nothing before it raises. *)
Lemma addKeyframes_raised_state (st : state) (e : exn) :
  fst (addKeyframes st) = Raised e -> snd (addKeyframes st) = st.
Proof.
  unfold addKeyframes.
  destruct (interpolated st) as [[[ov iv] nv] | e']; simpl.
  - discriminate.
  - reflexivity.
Qed.

(** C4.  On two non-empty lists [addKeyframes] raises [ValueError] if and
    only if the first frame of [insertedKeys] is greater than the first frame
    of [nextKeys]; when one of the lists is empty it returns. *)
Theorem addKeyframes_order_error :
  (forall (st : state) (k1 k2 : ref) (l1 l2 : list ref),
      insertedKeys st = k1 :: l1 ->
      nextKeys st = k2 :: l2 ->
      (fst (addKeyframes st) = Raised ValueError <->
       frame (st_heap st k2) < frame (st_heap st k1))) /\
  (forall st : state,
      insertedKeys st = [] \/ nextKeys st = [] ->
      fst (addKeyframes st) = Returned).
Proof.
  split.
  - intros st k1 k2 l1 l2 E1 E2.
    rewrite addKeyframes_ValueError, findOverlap_raises, E1, E2.
    split.
    + intros [_ (a & la & b & lb & Ea & Eb & G)].
      injection Ea as <- _. injection Eb as <- _. exact G.
    + intros G. split; [reflexivity |].
      exists k1, l1, k2, l2. auto.
  - intros [h ins nxt]; simpl. intros [-> | ->].
    + unfold addKeyframes, interpolated; simpl.
      rewrite interpolate_no_keyList. reflexivity.
    + unfold addKeyframes, interpolated; simpl.
      destruct ins; reflexivity.
Qed.

(** C9.  When [addKeyframes] raises [ValueError], the error comes from
    [findOverlap], and the store and both lists are as they were. *)
Theorem addKeyframes_ValueError_unchanged (st : state) :
  fst (addKeyframes st) = Raised ValueError ->
  findOverlap (st_heap st) (insertedKeys st) (nextKeys st) = Raise ValueError /\
  snd (addKeyframes st) = st.
Proof.
  intros E. split.
  - apply addKeyframes_ValueError, E.
  - apply (addKeyframes_raised_state st ValueError), E.
Qed.

(** ** Sorting by frame *)

Lemma is_sorted_cons (h : heap) (a b : ref) (l : list ref) :
  is_sorted h (a :: b :: l) = true <->
  frame (h a) <= frame (h b) /\ is_sorted h (b :: l) = true.
Proof.
  cbn [is_sorted]. rewrite andb_true_iff, Qle_bool_iff. tauto.
Qed.

Lemma is_sorted_tail (h : heap) (a : ref) (l : list ref) :
  is_sorted h (a :: l) = true -> is_sorted h l = true.
Proof.
  destruct l as [| b l]; [reflexivity |].
  intros S. apply is_sorted_cons in S. tauto.
Qed.

Lemma insert_key_perm (h : heap) (k : ref) (l : list ref) :
  Permutation (insert_key h k l) (k :: l).
Proof.
  induction l as [| y l IH]; simpl.
  - apply Permutation_refl.
  - destruct (Qle_bool (frame (h k)) (frame (h y))).
    + apply Permutation_refl.
    + eapply Permutation_trans; [apply perm_skip, IH | apply perm_swap].
Qed.

Lemma sort_by_frame_perm (h : heap) (l : list ref) :
  Permutation (sort_by_frame h l) l.
Proof.
  induction l as [| k l IH]; simpl.
  - apply Permutation_refl.
  - eapply Permutation_trans; [apply insert_key_perm | apply perm_skip, IH].
Qed.

Lemma insert_key_sorted (h : heap) (k : ref) (l : list ref) :
  is_sorted h l = true -> is_sorted h (insert_key h k l) = true.
Proof.
  induction l as [| y l IH]; [reflexivity |].
  intros S. cbn [insert_key].
  destruct (Qle_bool (frame (h k)) (frame (h y))) eqn:C.
  - apply is_sorted_cons. apply Qle_bool_iff in C. auto.
  - apply Qle_bool_gt in C.
    specialize (IH (is_sorted_tail _ _ _ S)).
    destruct l as [| z l].
    + cbn [insert_key]. apply is_sorted_cons. split; [| reflexivity].
      apply Qlt_le_weak, C.
    + apply is_sorted_cons in S. destruct S as [Syz S].
      cbn [insert_key] in IH |- *.
      destruct (Qle_bool (frame (h k)) (frame (h z))).
      * apply is_sorted_cons. split; [apply Qlt_le_weak, C | exact IH].
      * apply is_sorted_cons. split; [exact Syz | exact IH].
Qed.

Lemma sort_by_frame_sorted (h : heap) (l : list ref) :
  is_sorted h (sort_by_frame h l) = true.
Proof.
  induction l as [| k l IH]; [reflexivity |].
  simpl. apply insert_key_sorted, IH.
Qed.

(** Sorting a list that is already sorted gives the list back, also when
    some frames are equal (the sort is stable). *)
Lemma sort_by_frame_sorted_id (h : heap) (l : list ref) :
  is_sorted h l = true -> sort_by_frame h l = l.
Proof.
  induction l as [| k l IH]; [reflexivity |].
  intros S. simpl. rewrite (IH (is_sorted_tail _ _ _ S)).
  destruct l as [| y l]; [reflexivity |].
  apply is_sorted_cons in S. destruct S as [C _].
  apply Qle_bool_iff in C. cbn [insert_key]. rewrite C. reflexivity.
Qed.

(** The sort is stable: the keys at one frame keep their order. *)
Lemma insert_key_stable (h : heap) (f : Q) (k : ref) (l : list ref) :
  filter (fun r => Qeq_bool (frame (h r)) f) (insert_key h k l) =
  filter (fun r => Qeq_bool (frame (h r)) f) (k :: l).
Proof.
  induction l as [| y l IH]; [reflexivity |].
  cbn [insert_key].
  destruct (Qle_bool (frame (h k)) (frame (h y))) eqn:C; [reflexivity |].
  apply Qle_bool_gt in C.
  cbn [filter] in IH |- *. rewrite IH.
  destruct (Qeq_bool (frame (h k)) f) eqn:Ek;
    destruct (Qeq_bool (frame (h y)) f) eqn:Ey; try reflexivity.
  apply Qeq_bool_iff in Ek, Ey. exfalso.
  rewrite Ek, Ey in C. apply (Qlt_irrefl _ C).
Qed.

Lemma sort_by_frame_stable (h : heap) (f : Q) (l : list ref) :
  filter (fun r => Qeq_bool (frame (h r)) f) (sort_by_frame h l) =
  filter (fun r => Qeq_bool (frame (h r)) f) l.
Proof.
  induction l as [| k l IH]; [reflexivity |].
  cbn [sort_by_frame fold_right]. rewrite insert_key_stable.
  cbn [filter]. unfold sort_by_frame in IH. rewrite IH. reflexivity.
Qed.

(** C7.  With an empty [nextKeys], [addKeyframes] returns, leaves the store
    (every frame and value) and [nextKeys] as they were, and replaces
    [insertedKeys] by a permutation of itself, sorted by frame; a list that
    was sorted is left as it was. *)
Theorem addKeyframes_empty_next (h : heap) (keys : list ref) :
  addKeyframes (mkState h keys []) =
    (Returned, mkState h (sort_by_frame h keys) []) /\
  Permutation (sort_by_frame h keys) keys /\
  (is_sorted h keys = true ->
   addKeyframes (mkState h keys []) = (Returned, mkState h keys [])).
Proof.
  assert (E : addKeyframes (mkState h keys []) =
              (Returned, mkState h (sort_by_frame h keys) [])).
  { unfold addKeyframes, interpolated; simpl.
    replace (findOverlap h keys []) with (@Ok (list ref) [])
      by (destruct keys; reflexivity).
    simpl. rewrite app_nil_r. reflexivity. }
  split; [exact E |].
  split; [apply sort_by_frame_perm |].
  intros S. rewrite E, (sort_by_frame_sorted_id h keys S). reflexivity.
Qed.

(** C6.  When [addKeyframes] returns, [insertedKeys] is sorted by frame
    (frames never decrease) and has as many elements as the two lists had
    together. *)
Theorem addKeyframes_sorted_length (st st' : state) :
  addKeyframes st = (Returned, st') ->
  is_sorted (st_heap st') (insertedKeys st') = true /\
  length (insertedKeys st') =
    (length (insertedKeys st) + length (nextKeys st))%nat.
Proof.
  unfold addKeyframes.
  destruct (interpolated st) as [[[ov iv] nv] | e]; [| discriminate].
  intros E. injection E as <-. simpl. split.
  - apply sort_by_frame_sorted.
  - rewrite (Permutation_length (sort_by_frame_perm _ _)).
    apply length_app.
Qed.

(** ** findOverlap *)

Section FindOverlap.

Variable h : heap.

(** The reversed list starts with keys above [f2] and then has a key that is
    not: the loop collects the first ones, and the boundary key when it has
    collected something. *)
Lemma findOverlap_loop_boundary (f2 : Q) (g : list ref) (b : ref)
      (rest : list ref) :
  Forall (fun k => f2 < frame (h k)) g ->
  frame (h b) <= f2 ->
  forall (overlapping : bool) (acc : list ref),
    findOverlap_loop h f2 (g ++ b :: rest) overlapping acc =
    acc ++ g ++
      (if overlapping || match g with [] => false | _ => true end
       then [b] else []).
Proof.
  intros G Hb. induction G as [| x g Hx G IH]; intros overlapping acc.
  - cbn [app findOverlap_loop].
    apply Qgtb_le in Hb. rewrite Hb, orb_false_r.
    destruct overlapping; [reflexivity | symmetry; apply app_nil_r].
  - cbn [app findOverlap_loop].
    apply Qgtb_gt in Hx. rewrite Hx, IH, orb_true_r. cbn [orb].
    rewrite <- app_assoc. reflexivity.
Qed.

(** A list whose first key is not above [f2] splits at its last such key. *)
Lemma split_at_boundary (f2 : Q) (l : list ref) (k0 : ref) :
  frame (h k0) <= f2 ->
  exists pre b suf,
    k0 :: l = pre ++ b :: suf /\
    frame (h b) <= f2 /\
    Forall (fun k => f2 < frame (h k)) suf.
Proof.
  intros H0. induction l as [| x l IH] using rev_ind.
  - exists [], k0, []. auto.
  - destruct IH as (pre & b & suf & E & Hb & Hs).
    destruct (Qlt_le_dec f2 (frame (h x))) as [Hx | Hx].
    + exists pre, b, (suf ++ [x]). split; [| split].
      * rewrite app_comm_cons, E, <- app_assoc. reflexivity.
      * exact Hb.
      * apply Forall_app. auto.
    + exists (k0 :: l), x, []. auto.
Qed.

(** What [findOverlap] returns under its order precondition. *)
Lemma findOverlap_split (A B A' B' : list ref) (a0 b0 : ref) :
  A = a0 :: A' -> B = b0 :: B' ->
  frame (h a0) <= frame (h b0) ->
  exists pre b suf,
    A = pre ++ b :: suf /\
    frame (h b) <= frame (h b0) /\
    Forall (fun k => frame (h b0) < frame (h k)) suf /\
    findOverlap h A B = Ok (match suf with [] => [] | _ => b :: suf end).
Proof.
  intros -> -> H0.
  destruct (split_at_boundary (frame (h b0)) A' a0 H0)
    as (pre & b & suf & E & Hb & Hs).
  exists pre, b, suf. repeat split; try assumption.
  unfold findOverlap. apply Qgtb_le in H0. rewrite H0, E.
  rewrite rev_app_distr. cbn [rev]. rewrite <- app_assoc. cbn [app].
  rewrite findOverlap_loop_boundary.
  - cbn [orb app]. destruct suf as [| s suf]; [reflexivity |].
    assert (N : rev (s :: suf) <> []).
    { intros C. apply (f_equal (@length ref)) in C.
      rewrite length_rev in C. discriminate. }
    destruct (rev (s :: suf)) as [| r rs] eqn:R; [congruence |].
    rewrite <- R, rev_app_distr, rev_involutive. reflexivity.
  - apply Forall_rev, Hs.
  - exact Hb.
Qed.

Lemma is_sorted_app_le (pre suf : list ref) (b : ref) :
  is_sorted h (pre ++ b :: suf) = true ->
  Forall (fun k => frame (h k) <= frame (h b)) (pre ++ [b]).
Proof.
  induction pre as [| x pre IH]; intros S.
  - constructor; [apply Qle_refl | constructor].
  - specialize (IH (is_sorted_tail _ _ _ S)).
    constructor; [| exact IH].
    destruct pre as [| y pre]; cbn [app] in *.
    + apply is_sorted_cons in S. tauto.
    + apply is_sorted_cons in S. destruct S as [Hxy _].
      apply Forall_inv in IH. eapply Qle_trans; eassumption.
Qed.

Lemma last_app_cons (l1 l2 : list ref) (x d : ref) :
  last (l1 ++ x :: l2) d = last (x :: l2) d.
Proof.
  induction l1 as [| y l1 IH]; [reflexivity |].
  rewrite <- IH. cbn [app last].
  destruct (l1 ++ x :: l2) eqn:E; [| reflexivity].
  destruct l1; discriminate.
Qed.

Lemma last_cons_default (x : ref) (l : list ref) (d d' : ref) :
  last (x :: l) d = last (x :: l) d'.
Proof.
  revert x. induction l as [| y l IH]; intros x; [reflexivity |].
  change (last (y :: l) d = last (y :: l) d'). apply IH.
Qed.

Lemma last_cons_In (x : ref) (l : list ref) (d : ref) :
  In (last (x :: l) d) (x :: l).
Proof.
  revert x. induction l as [| y l IH]; intros x.
  - left. reflexivity.
  - right. apply IH.
Qed.

Lemma is_sorted_app_r (l1 l2 : list ref) :
  is_sorted h (l1 ++ l2) = true -> is_sorted h l2 = true.
Proof.
  induction l1 as [| x l1 IH]; [auto |].
  intros S. apply IH. exact (is_sorted_tail _ _ _ S).
Qed.

(** C5.  For non-empty sorted lists [A] and [B] whose first frames are in
    order, [A] splits as [pre ++ b :: suf], where [suf] holds exactly the
    keys with a frame above the first frame of [B] and [b] is the key just
    before them; [findOverlap] returns [b :: suf], in the order of [A]
    (sorted), when [suf] is not empty, and the empty list when it is, which
    is the case when the last frame of [A] is not above the first frame of
    [B]. *)
Theorem findOverlap_sorted (A B A' B' : list ref) (a0 b0 : ref) :
  A = a0 :: A' -> B = b0 :: B' ->
  is_sorted h A = true -> is_sorted h B = true ->
  frame (h a0) <= frame (h b0) ->
  exists pre b suf overlap,
    A = pre ++ b :: suf /\
    Forall (fun k => frame (h k) <= frame (h b0)) (pre ++ [b]) /\
    Forall (fun k => frame (h b0) < frame (h k)) suf /\
    findOverlap h A B = Ok overlap /\
    overlap = match suf with [] => [] | _ => b :: suf end /\
    is_sorted h overlap = true /\
    (frame (h (last A a0)) <= frame (h b0) -> overlap = []).
Proof.
  intros EA EB SA SB H0.
  destruct (findOverlap_split A B A' B' a0 b0 EA EB H0)
    as (pre & b & suf & E & Hb & Hs & F).
  exists pre, b, suf, (match suf with [] => [] | _ => b :: suf end).
  rewrite E in SA.
  split; [exact E |]. split; [| split; [exact Hs | split; [exact F |]]].
  - eapply Forall_impl; [| apply is_sorted_app_le with (suf := suf), SA].
    intros k Hk. cbn beta in Hk. eapply Qle_trans; eassumption.
  - split; [reflexivity |]. split.
    + destruct suf; [reflexivity | apply (is_sorted_app_r pre), SA].
    + intros HL. destruct suf as [| s suf]; [reflexivity |]. exfalso.
      rewrite E in HL.
      change (pre ++ b :: s :: suf) with (pre ++ [b] ++ s :: suf) in HL.
      rewrite app_assoc, last_app_cons in HL.
      rewrite Forall_forall in Hs.
      apply (Qlt_not_le _ _ (Hs _ (last_cons_In s suf a0)) HL).
Qed.

(** C10.  For non-empty sorted lists whose first frames are in order,
    [findOverlap] returns a list, and never a list of one key. *)
Theorem findOverlap_not_singleton (A B A' B' : list ref) (a0 b0 : ref) :
  A = a0 :: A' -> B = b0 :: B' ->
  is_sorted h A = true -> is_sorted h B = true ->
  frame (h a0) <= frame (h b0) ->
  exists overlap,
    findOverlap h A B = Ok overlap /\
    (overlap = [] \/ (2 <= length overlap)%nat).
Proof.
  intros EA EB _ _ H0.
  destruct (findOverlap_split A B A' B' a0 b0 EA EB H0)
    as (pre & b & suf & _ & _ & _ & F).
  exists (match suf with [] => [] | _ => b :: suf end).
  split; [exact F |].
  destruct suf as [| s suf]; [left; reflexivity | right; simpl; lia].
Qed.

End FindOverlap.

(** ** The demonstration input *)

(** C2.  On the demonstration input [addKeyframes] returns and leaves in
    [insertedKeys] the curve
    [(0,0), (9,3), (15,7), (18,8), (24,8), (27,7), (33,3), (42,0)]. *)
Theorem addKeyframes_demo :
  curve (st_heap demo_state) (insertedKeys demo_state) =
    [mkKeyframe 0 0; mkKeyframe 15 5; mkKeyframe 18 5; mkKeyframe 33 0] /\
  curve (st_heap demo_state) (nextKeys demo_state) =
    [mkKeyframe 9 0; mkKeyframe 24 5; mkKeyframe 27 5; mkKeyframe 42 0] /\
  fst (addKeyframes demo_state) = Returned /\
  curve_eqb (merged_curve demo_state) demo_curve = true.
Proof. repeat split; vm_compute; reflexivity. Qed.

(** The sample at frame 33 is not [(33, 1.2)]. *)
Lemma demo_not_scenario_curve :
  ~ (fst (addKeyframes demo_state) = Returned /\
     curve_eqb (merged_curve demo_state) scenario_curve = true).
Proof. intros [_ E]. vm_compute in E. discriminate E. Qed.

(** ** interval on a list of one keyframe *)

(** C3.  [single_next_state] has two sorted lists whose first frames are in
    order, yet [interval] on its [nextKeys] at frame 5 ends without a
    [return], and [addKeyframes] raises [TypeError]. *)
Theorem addKeyframes_single_next_TypeError :
  is_ascending (st_heap single_next_state)
               (insertedKeys single_next_state) = true /\
  is_ascending (st_heap single_next_state) (nextKeys single_next_state) = true /\
  Qgtb (frame (st_heap single_next_state 0%nat))
       (frame (st_heap single_next_state 2%nat)) = false /\
  interval (st_heap single_next_state) (nextKeys single_next_state) 5
    = NoneValue /\
  addKeyframes single_next_state = (Raised TypeError, single_next_state).
Proof. repeat split. Qed.

(** ** interval and curveValue on ascending lists *)

Section Interval.

Variable h : heap.

Lemma is_ascending_cons (a b : ref) (l : list ref) :
  is_ascending h (a :: b :: l) = true <->
  frame (h a) < frame (h b) /\ is_ascending h (b :: l) = true.
Proof.
  cbn [is_ascending]. rewrite andb_true_iff, Qltb_lt. tauto.
Qed.

Lemma is_ascending_tail (a : ref) (l : list ref) :
  is_ascending h (a :: l) = true -> is_ascending h l = true.
Proof.
  destruct l as [| b l]; [reflexivity |].
  intros S. apply is_ascending_cons in S. tauto.
Qed.

Lemma is_ascending_app_r (l1 l2 : list ref) :
  is_ascending h (l1 ++ l2) = true -> is_ascending h l2 = true.
Proof.
  induction l1 as [| x l1 IH]; [auto |].
  intros S. apply IH. exact (is_ascending_tail _ _ S).
Qed.

(** Every later key has a greater frame. *)
Lemma is_ascending_head_lt (a : ref) (l : list ref) :
  is_ascending h (a :: l) = true ->
  Forall (fun k => frame (h a) < frame (h k)) l.
Proof.
  revert a. induction l as [| b l IH]; intros a S; [constructor |].
  apply is_ascending_cons in S. destruct S as [Hab S].
  constructor; [exact Hab |].
  eapply Forall_impl; [| apply IH, S].
  intros k Hk. cbn beta in Hk. eapply Qlt_trans; eassumption.
Qed.

(** Every earlier key has a smaller frame. *)
Lemma is_ascending_app_lt (pre suf : list ref) (b : ref) :
  is_ascending h (pre ++ b :: suf) = true ->
  Forall (fun k => frame (h k) < frame (h b)) pre.
Proof.
  induction pre as [| x pre IH]; intros S; [constructor |].
  constructor.
  - apply is_ascending_head_lt in S. rewrite Forall_forall in S.
    apply S, in_or_app. right. left. reflexivity.
  - apply IH. exact (is_ascending_tail _ _ S).
Qed.

(** Between the first and the last frame, [interval] is its loop. *)
Lemma interval_in_domain (k0 : ref) (l : list ref) (t : Q) :
  frame (h k0) <= t ->
  t <= frame (h (last (k0 :: l) k0)) ->
  interval h (k0 :: l) t =
    match interval_loop h (k0 :: l) t with
    | Some (a, b) => KeyPair a b
    | None => NoneValue
    end.
Proof.
  intros H0 HL. unfold interval.
  apply Qgtb_le in H0. apply Qltb_ge in HL. rewrite H0, HL. reflexivity.
Qed.

(** With two keys or more the loop finds a pair. *)
Lemma interval_loop_finds (t : Q) (l : list ref) :
  forall k0 : ref,
    l <> [] ->
    frame (h k0) <= t ->
    t <= frame (h (last (k0 :: l) k0)) ->
    exists p q, interval_loop h (k0 :: l) t = Some (p, q).
Proof.
  induction l as [| y l IH]; intros k0 N H0 HL; [congruence |].
  cbn [interval_loop].
  destruct (Qle_bool (frame (h k0)) t && Qle_bool t (frame (h y))) eqn:C.
  - eauto.
  - apply andb_false_iff in C. destruct C as [C | C].
    + apply Qle_bool_gt in C. exfalso. apply (Qlt_not_le _ _ C H0).
    + apply Qle_bool_gt in C.
      destruct l as [| z l].
      * exfalso. cbn [last] in HL. apply (Qlt_not_le _ _ C HL).
      * apply IH; [discriminate | apply Qlt_le_weak, C |].
        change (last (k0 :: y :: z :: l) k0) with (last (z :: l) k0) in HL.
        change (last (y :: z :: l) y) with (last (z :: l) y).
        rewrite (last_cons_default z l y k0). exact HL.
Qed.

(** At the frame of one of its keys, an ascending list of two keys or more
    has that key's value. *)
Lemma interval_loop_at_sample (k : ref) (l : list ref) :
  is_ascending h l = true ->
  In k l ->
  (2 <= length l)%nat ->
  exists p q,
    interval_loop h l (frame (h k)) = Some (p, q) /\
    getValue (h p) (h q) (frame (h k)) == value (h k).
Proof.
  induction l as [| x l IH]; intros S I L; [destruct I |].
  destruct l as [| y l]; [simpl in L; lia |].
  pose proof (is_ascending_head_lt _ _ S) as Hx.
  pose proof (is_ascending_head_lt _ _ (is_ascending_tail _ _ S)) as Hy.
  rewrite Forall_forall in Hx, Hy.
  assert (Hxy : frame (h x) < frame (h y)) by (apply Hx; left; reflexivity).
  cbn [interval_loop].
  destruct I as [<- | [<- | I]].
  - exists x, y.
    rewrite (proj2 (Qle_bool_iff _ _) (Qle_refl _)).
    rewrite (proj2 (Qle_bool_iff _ _) (Qlt_le_weak _ _ Hxy)).
    split; [reflexivity |]. apply getValue_left. reflexivity.
  - exists x, y.
    rewrite (proj2 (Qle_bool_iff _ _) (Qlt_le_weak _ _ Hxy)).
    rewrite (proj2 (Qle_bool_iff _ _) (Qle_refl _)).
    split; [reflexivity |]. apply getValue_right; [reflexivity |].
    intros E. rewrite E in Hxy. apply (Qlt_irrefl _ Hxy).
  - rewrite (proj2 (Qle_bool_gt _ _) (Hy _ I)), andb_false_r.
    apply IH.
    + exact (is_ascending_tail _ _ S).
    + right. exact I.
    + destruct l; [destruct I | simpl; lia].
Qed.

(** Dropping keys that end at or before the query frame does not change the
    value read by the loop. *)
Lemma interval_loop_prefix (t : Q) (b : ref) (suf : list ref) (p' q' : ref) :
  frame (h b) <= t ->
  interval_loop h (b :: suf) t = Some (p', q') ->
  forall pre : list ref,
    is_ascending h (pre ++ b :: suf) = true ->
    exists p q,
      interval_loop h (pre ++ b :: suf) t = Some (p, q) /\
      getValue (h p) (h q) t == getValue (h p') (h q') t.
Proof.
  intros Hb F pre. induction pre as [| x pre IH]; intros S.
  - exists p', q'. split; [exact F | reflexivity].
  - specialize (IH (is_ascending_tail _ _ S)).
    pose proof (is_ascending_app_lt (x :: pre) suf b S) as Hpre.
    rewrite Forall_forall in Hpre.
    assert (Hx : frame (h x) < frame (h b)) by (apply Hpre; left; reflexivity).
    destruct pre as [| y pre]; cbn [app] in *.
    + cbn [interval_loop].
      destruct (Qle_bool (frame (h x)) t && Qle_bool t (frame (h b))) eqn:C.
      * apply andb_true_iff in C. destruct C as [_ C].
        apply Qle_bool_iff in C.
        assert (E : frame (h b) == t) by (apply Qle_antisym; assumption).
        exists x, b. split; [reflexivity |].
        rewrite getValue_right;
          [| exact E | intros E'; rewrite E' in Hx; apply (Qlt_irrefl _ Hx)].
        destruct suf as [| s suf]; [discriminate |].
        cbn [interval_loop] in F.
        destruct (Qle_bool (frame (h b)) t && Qle_bool t (frame (h s))) eqn:C'.
        -- injection F as <- <-. symmetry. apply getValue_left, E.
        -- exfalso. apply andb_false_iff in C'.
           apply is_ascending_tail, is_ascending_cons in S.
           destruct S as [Hbs _].
           destruct C' as [C' | C']; apply Qle_bool_gt in C'; lra.
      * exact IH.
    + cbn [interval_loop].
      assert (Hy : frame (h y) < frame (h b)).
      { apply Hpre. right. left. reflexivity. }
      assert (C : Qle_bool t (frame (h y)) = false).
      { apply Qle_bool_gt. lra. }
      rewrite C, andb_false_r. exact IH.
Qed.

(** [interval] ends without a [return] exactly on a list of one key asked at
    that key's frame. *)
Lemma interval_NoneValue_iff (keyList : list ref) (t : Q) :
  interval h keyList t = NoneValue <->
  exists k, keyList = [k] /\ frame (h k) == t.
Proof.
  split.
  - destruct keyList as [| k0 l]; [discriminate |].
    unfold interval.
    destruct (Qgtb (frame (h k0)) t) eqn:G; [discriminate |].
    destruct (Qltb (frame (h (last (k0 :: l) k0))) t) eqn:L; [discriminate |].
    apply Qgtb_le in G. apply Qltb_ge in L.
    destruct l as [| k1 l].
    + intros _. exists k0. split; [reflexivity |].
      apply Qle_antisym; assumption.
    + destruct (interval_loop_finds t (k1 :: l) k0) as (p & q & F);
        [discriminate | exact G | exact L |].
      rewrite F. discriminate.
  - intros (k & -> & E). unfold interval. cbn [last interval_loop].
    rewrite (proj2 (Qgtb_le _ _)) by (rewrite E; apply Qle_refl).
    rewrite (proj2 (Qltb_ge _ _)) by (rewrite E; apply Qle_refl).
    reflexivity.
Qed.

End Interval.

(** ** The store after the additions *)

Lemma add_value_frame (h : heap) (r : ref) (v : Q) (r' : ref) :
  frame (add_value h r v r') = frame (h r').
Proof.
  unfold add_value. destruct (Nat.eqb_spec r' r) as [-> | _]; reflexivity.
Qed.

Lemma add_values_frame (keys : list ref) :
  forall (interps : list Keyframe) (h : heap) (r : ref),
    frame (add_values h keys interps r) = frame (h r).
Proof.
  induction keys as [| key keys IH]; intros [| interp interps] h r;
    cbn [add_values]; try reflexivity.
  rewrite IH. apply add_value_frame.
Qed.

Lemma add_values_notin (keys : list ref) :
  forall (interps : list Keyframe) (h : heap) (r : ref),
    ~ In r keys -> add_values h keys interps r = h r.
Proof.
  induction keys as [| key keys IH]; intros [| interp interps] h r N;
    cbn [add_values]; try reflexivity.
  rewrite IH by (intros I; apply N; right; exact I).
  unfold add_value. destruct (Nat.eqb_spec r key) as [-> | _]; [| reflexivity].
  exfalso. apply N. left. reflexivity.
Qed.

(** Each key of a duplicate-free list receives the value zipped with it. *)
Lemma add_values_Forall2 (R : ref -> Keyframe -> Prop)
      (keys : list ref) (interps : list Keyframe) :
  Forall2 R keys interps ->
  NoDup keys ->
  forall (h : heap) (k : ref),
    In k keys ->
    exists interp,
      R k interp /\
      add_values h keys interps k =
        mkKeyframe (frame (h k)) (value (h k) + value interp).
Proof.
  induction 1 as [| key interp keys interps HR _ IH]; intros ND h k I;
    [destruct I |].
  inversion ND as [| ? ? Nkey ND']; subst.
  cbn [add_values]. destruct I as [<- | I].
  - exists interp. split; [exact HR |].
    rewrite add_values_notin by exact Nkey.
    unfold add_value. rewrite Nat.eqb_refl. reflexivity.
  - destruct (IH ND' (add_value h key (value interp)) k I) as (kv & HR' & E).
    exists kv. split; [exact HR' |].
    rewrite E. unfold add_value.
    destruct (Nat.eqb_spec k key) as [-> | _]; [contradiction | reflexivity].
Qed.

Lemma interval_NonePair (h : heap) (keyList : list ref) (t : Q) :
  interval h keyList t = NonePair -> keyList = [].
Proof.
  unfold interval. destruct keyList as [| k0 l]; [reflexivity |].
  destruct (Qgtb (frame (h k0)) t); [discriminate |].
  destruct (Qltb (frame (h (last (k0 :: l) k0))) t); [discriminate |].
  destruct (interval_loop h (k0 :: l) t) as [[a b] |]; discriminate.
Qed.

(** An interpolation loop over a non-empty list that ends normally has read
    one value for each key. *)
Lemma interpolate_Forall2 (h : heap) (keyList : list ref) :
  keyList <> [] ->
  forall (keys : list ref) (interps : list Keyframe),
    interpolate h keyList keys = Ok interps ->
    Forall2 (fun key interp =>
               curveValue h keyList (frame (h key)) = Some (value interp))
            keys interps.
Proof.
  intros N. induction keys as [| key keys IH]; intros interps E.
  - injection E as <-. constructor.
  - cbn [interpolate] in E.
    destruct (interval h keyList (frame (h key))) as [| p q |] eqn:I.
    + apply interval_NonePair in I. contradiction.
    + destruct (interpolate h keyList keys) as [rest | e]; [| discriminate].
      simpl in E. injection E as <-.
      constructor; [| apply IH; reflexivity].
      unfold curveValue. rewrite I. reflexivity.
    + discriminate.
Qed.

Lemma NoDup_app_disjoint (l1 l2 : list ref) (k : ref) :
  NoDup (l1 ++ l2) -> In k l1 -> ~ In k l2.
Proof.
  induction l1 as [| x l1 IH]; intros ND I1 I2; [destruct I1 |].
  inversion ND as [| ? ? Nx ND']; subst.
  destruct I1 as [<- | I1].
  - apply Nx, in_or_app. right. exact I2.
  - exact (IH ND' I1 I2).
Qed.

(** ** The sum of two overlapping curves *)

Section Sum.

Variable h : heap.

Lemma curveValue_in_domain (keyList : list ref) (t : Q) :
  in_domain h keyList t ->
  curveValue h keyList t =
    match interval_loop h keyList t with
    | Some (a, b) => Some (getValue (h a) (h b) t)
    | None => None
    end.
Proof.
  destruct keyList as [| k0 l]; [intros [] |].
  intros [H0 HL]. unfold curveValue.
  rewrite (interval_in_domain h k0 l t H0 HL).
  destruct (interval_loop h (k0 :: l) t) as [[a b] |]; reflexivity.
Qed.

(** At the frame of one of its keys an ascending curve has that key's
    value. *)
Lemma original_value_at_sample (keyList : list ref) (k : ref) :
  is_ascending h keyList = true ->
  In k keyList ->
  in_domain h keyList (frame (h k)) ->
  exists v, original_value h keyList (frame (h k)) v /\ v == value (h k).
Proof.
  intros S I D.
  destruct keyList as [| k0 [| k1 l]]; [destruct I | |].
  - destruct I as [<- | []].
    exists (value (h k0)). split; [| reflexivity].
    right. exists k0. split; [reflexivity | split; reflexivity].
  - assert (L : (2 <= length (k0 :: k1 :: l))%nat) by (simpl; lia).
    destruct (interval_loop_at_sample h k (k0 :: k1 :: l) S I L)
      as (p & q & F & V).
    exists (getValue (h p) (h q) (frame (h k))). split; [| exact V].
    left. rewrite (curveValue_in_domain _ _ D), F. reflexivity.
Qed.

(** The keyframes of both lists after the additions. *)
Lemma sum_of_samples (A B A' B' : list ref) (a0 b0 : ref)
      (st' : state) :
  A = a0 :: A' -> B = b0 :: B' ->
  is_ascending h A = true ->
  is_ascending h B = true ->
  NoDup (A ++ B) ->
  frame (h a0) <= frame (h b0) ->
  frame (h b0) < frame (h (last A a0)) ->
  addKeyframes (mkState h A B) = (Returned, st') ->
  forall k : ref,
    In k (A ++ B) ->
    in_domain h A (frame (h k)) ->
    in_domain h B (frame (h k)) ->
    In k (insertedKeys st') /\
    frame (st_heap st' k) = frame (h k) /\
    sum_at h A B (st_heap st') k.
Proof.
  intros EA EB SA SB ND H0 HL Run k Ik DA DB.
  destruct (findOverlap_split h A B A' B' a0 b0 EA EB H0)
    as (pre & b & suf & E & Hb & Hs & F).
  (* the overlap is not empty *)
  destruct suf as [| s suf].
  { exfalso. rewrite E, last_app_cons in HL. cbn [last] in HL. lra. }
  remember (b :: s :: suf) as ov eqn:Eov.
  assert (Nov0 : ov <> []) by (rewrite Eov; discriminate).
  (* run the call *)
  unfold addKeyframes, interpolated in Run. cbn [st_heap insertedKeys nextKeys] in Run.
  rewrite F in Run. cbn [bind] in Run.
  destruct (interpolate h ov B) as [nv | e1] eqn:I1; [| discriminate].
  cbn [bind] in Run.
  destruct (interpolate h B ov) as [iv | e2] eqn:I2; [| discriminate].
  cbn [bind] in Run. injection Run as <-. cbn [st_heap insertedKeys].
  apply interpolate_Forall2 in I1; [| exact Nov0].
  apply interpolate_Forall2 in I2; [| rewrite EB; discriminate].
  remember (add_values h ov iv) as h1 eqn:Eh1.
  assert (NDB : NoDup B) by (apply NoDup_app_remove_l in ND; exact ND).
  assert (NDov : NoDup ov).
  { apply NoDup_app_remove_r in ND. rewrite E in ND.
    apply NoDup_app_remove_l in ND. exact ND. }
  assert (OvA : forall r, In r ov -> In r A).
  { intros r Ir. rewrite E. apply in_or_app. right. exact Ir. }
  split; [| split].
  - apply (Permutation_in k (Permutation_sym (sort_by_frame_perm _ (A ++ B)))).
    exact Ik.
  - rewrite add_values_frame, Eh1, add_values_frame. reflexivity.
  - apply in_app_or in Ik. destruct Ik as [IA | IB].
    + (* a key of A: it is in the overlap *)
      assert (NB : ~ In k B) by (apply (NoDup_app_disjoint A B k ND IA)).
      assert (Iov : In k ov).
      { rewrite E in IA. apply in_app_or in IA. destruct IA as [Ipre | Iov];
          [| exact Iov].
        exfalso. rewrite E, Eov in SA.
        pose proof (is_ascending_app_lt h pre (s :: suf) b SA) as Hpre.
        rewrite Forall_forall in Hpre. specialize (Hpre k Ipre).
        rewrite EB in DB. destruct DB as [DB _]. lra. }
      destruct (add_values_Forall2 _ ov iv I2 NDov h k Iov) as (kv & Rk & Ek).
      destruct (original_value_at_sample A k SA IA DA) as (va & Va & Eva).
      exists va, (value kv). split; [exact Va |]. split; [left; exact Rk |].
      rewrite add_values_notin by exact NB.
      rewrite Eh1, Ek. cbn [value]. rewrite Eva. reflexivity.
    + (* a key of B: the overlap is read at its frame *)
      assert (NA : ~ In k A).
      { intros IA. exact (NoDup_app_disjoint A B k ND IA IB). }
      assert (Nov : ~ In k ov) by (intros Iov; apply NA, OvA, Iov).
      destruct (add_values_Forall2 _ B nv I1 NDB h1 k IB) as (kv & Rk & Ek).
      assert (E1 : h1 k = h k) by (rewrite Eh1; apply add_values_notin, Nov).
      rewrite E1 in Ek.
      destruct (original_value_at_sample B k SB IB DB) as (vb & Vb & Evb).
      (* the overlap and the whole of A give one value *)
      assert (Dov : in_domain h ov (frame (h k))).
      { rewrite Eov. cbn [in_domain]. split.
        - rewrite EB in DB. destruct DB as [DB _]. lra.
        - rewrite EA in DA. destruct DA as [_ DA]. rewrite <- EA in DA.
          rewrite E, Eov, last_app_cons in DA.
          rewrite (last_cons_default b (s :: suf) b a0). exact DA. }
      cbn beta in Rk. rewrite (curveValue_in_domain _ _ Dov) in Rk.
      destruct (interval_loop h ov (frame (h k))) as [[p' q'] |] eqn:L;
        [| discriminate].
      injection Rk as Rk.
      assert (Hbk : frame (h b) <= frame (h k)).
      { rewrite EB in DB. destruct DB as [DB _]. lra. }
      rewrite E, Eov in SA. rewrite Eov in L.
      destruct (interval_loop_prefix h (frame (h k)) b (s :: suf) p' q'
                                     Hbk L pre SA) as (p & q & LA & V).
      rewrite <- Eov, <- E in LA.
      exists (getValue (h p) (h q) (frame (h k))), vb.
      split; [| split; [exact Vb |]].
      * left. rewrite (curveValue_in_domain _ _ DA), LA. reflexivity.
      * rewrite Ek. cbn [value]. rewrite <- Rk, V, Evb.
        apply Qplus_comm.
Qed.

(** Equal query frames read equal values. *)
Lemma interval_loop_Qeq (keyList : list ref) (t t' : Q) :
  t == t' -> interval_loop h keyList t = interval_loop h keyList t'.
Proof.
  intros E. induction keyList as [| x l IH]; [reflexivity |].
  destruct l as [| y l]; [reflexivity |].
  cbn [interval_loop] in IH |- *.
  rewrite (Qleb_comp _ _ (Qeq_refl (frame (h x))) _ _ E).
  rewrite (Qleb_comp _ _ E _ _ (Qeq_refl (frame (h y)))).
  rewrite IH. reflexivity.
Qed.

Lemma interval_Qeq (keyList : list ref) (t t' : Q) :
  t == t' -> interval h keyList t = interval h keyList t'.
Proof.
  intros E. unfold interval. destruct keyList as [| k0 l]; [reflexivity |].
  unfold Qgtb, Qltb.
  rewrite (Qcompare_comp _ _ E _ _ (Qeq_refl (frame (h k0)))).
  rewrite (Qcompare_comp _ _ (Qeq_refl (frame (h (last (k0 :: l) k0)))) _ _ E).
  rewrite (interval_loop_Qeq (k0 :: l) t t' E). reflexivity.
Qed.

Lemma getValue_Qeq (k1 k2 : Keyframe) (t t' : Q) :
  t == t' -> getValue k1 k2 t == getValue k1 k2 t'.
Proof.
  intros E. unfold getValue. rewrite E. reflexivity.
Qed.

Lemma curveValue_single (k : ref) (t : Q) :
  frame (h k) == t -> curveValue h [k] t = None.
Proof.
  intros E. unfold curveValue, interval. cbn [last interval_loop].
  rewrite (proj2 (Qgtb_le _ _)) by (rewrite E; apply Qle_refl).
  rewrite (proj2 (Qltb_ge _ _)) by (rewrite E; apply Qle_refl).
  reflexivity.
Qed.

Lemma original_value_Qeq (keyList : list ref) (t t' v v' : Q) :
  t == t' ->
  original_value h keyList t v ->
  original_value h keyList t' v' ->
  v == v'.
Proof.
  intros E [V | (k & -> & Ek & ->)] [V' | (k' & Ek' & Ek'' & ->)].
  - unfold curveValue in V, V'. rewrite (interval_Qeq keyList t t' E) in V.
    destruct (interval h keyList t') as [| p q |]; try discriminate.
    injection V as <-. injection V' as <-. apply getValue_Qeq, E.
  - subst keyList. rewrite curveValue_single in V; [discriminate |].
    rewrite Ek'', E. reflexivity.
  - rewrite curveValue_single in V'; [discriminate |].
    rewrite Ek, E. reflexivity.
  - injection Ek' as <-. reflexivity.
Qed.

Lemma in_domain_Qeq (keyList : list ref) (t t' : Q) :
  t == t' -> in_domain h keyList t -> in_domain h keyList t'.
Proof.
  intros E. destruct keyList as [| k0 l]; [auto |].
  cbn [in_domain]. rewrite E. auto.
Qed.

End Sum.

(** ** Reading a sorted curve at the frame of one of its keys *)

Section SortedCurve.

Variable h : heap.

Lemma is_sorted_head_le (a : ref) (l : list ref) :
  is_sorted h (a :: l) = true ->
  Forall (fun k => frame (h a) <= frame (h k)) l.
Proof.
  revert a. induction l as [| b l IH]; intros a S; [constructor |].
  apply is_sorted_cons in S. destruct S as [Hab S].
  constructor; [exact Hab |].
  eapply Forall_impl; [| apply IH, S].
  intros k Hk. cbn beta in Hk. eapply Qle_trans; eassumption.
Qed.

Lemma is_sorted_in_domain (l : list ref) (k : ref) :
  is_sorted h l = true -> In k l -> in_domain h l (frame (h k)).
Proof.
  intros S I. destruct l as [| k0 l]; [destruct I |].
  cbn [in_domain]. split.
  - destruct I as [<- | I]; [apply Qle_refl |].
    pose proof (is_sorted_head_le _ _ S) as H0.
    rewrite Forall_forall in H0. apply H0, I.
  - destruct (in_split _ _ I) as (l1 & l2 & E).
    rewrite E in S |- *. rewrite last_app_cons.
    apply is_sorted_app_r in S.
    pose proof (is_sorted_head_le _ _ S) as Hk.
    rewrite Forall_forall in Hk.
    destruct (last_cons_In k l2 k0) as [<- | IL]; [apply Qle_refl |].
    apply Hk, IL.
Qed.

(** When all the keys at frame [t] have the value [s], and there is such a
    key, the pair found by the loop gives [s] at [t]. *)
Lemma interval_loop_sorted_at_sample (t s : Q) (l : list ref) :
  is_sorted h l = true ->
  (exists k, In k l /\ frame (h k) == t) ->
  (forall k, In k l -> frame (h k) == t -> value (h k) == s) ->
  forall p q,
    interval_loop h l t = Some (p, q) ->
    getValue (h p) (h q) t == s.
Proof.
  induction l as [| x l IH]; intros S (k & Ik & Ek) V p q F; [destruct Ik |].
  destruct l as [| y l]; [discriminate |].
  pose proof (is_sorted_head_le _ _ S) as Hx.
  pose proof (is_sorted_head_le _ _ (is_sorted_tail _ _ _ S)) as Hy.
  rewrite Forall_forall in Hx, Hy.
  cbn [interval_loop] in F.
  destruct (Qle_bool (frame (h x)) t && Qle_bool t (frame (h y))) eqn:C.
  - injection F as <- <-.
    apply andb_true_iff in C. destruct C as [Cx Cy].
    apply Qle_bool_iff in Cx, Cy.
    destruct (Qeq_dec (frame (h x)) t) as [Ex | Nx].
    + rewrite (getValue_left _ _ _ Ex). apply V; [left; reflexivity | exact Ex].
    + assert (Iy : In k (y :: l)).
      { destruct Ik as [<- | Ik]; [contradiction | exact Ik]. }
      assert (Ey : frame (h y) == t).
      { apply Qle_antisym; [| exact Cy].
        rewrite <- Ek. destruct Iy as [<- | Iy]; [apply Qle_refl |].
        apply Hy, Iy. }
      rewrite getValue_right.
      * apply V; [right; left; reflexivity | exact Ey].
      * exact Ey.
      * intros Exy. apply Nx. rewrite Exy. exact Ey.
  - apply IH.
    + exact (is_sorted_tail _ _ _ S).
    + exists k. split; [| exact Ek].
      destruct Ik as [<- | Ik]; [| exact Ik]. exfalso.
      apply andb_false_iff in C.
      destruct C as [C | C]; apply Qle_bool_gt in C.
      * rewrite Ek in C. apply (Qlt_irrefl _ C).
      * assert (Hxy : frame (h x) <= frame (h y)) by (apply Hx; left; reflexivity).
        rewrite Ek in Hxy. apply (Qlt_not_le _ _ C Hxy).
    + intros k' Ik'. apply V. right. exact Ik'.
    + exact F.
Qed.

End SortedCurve.

(** The state in which [addKeyframes] returns. *)
Lemma addKeyframes_returned (st st' : state) :
  addKeyframes st = (Returned, st') ->
  is_sorted (st_heap st') (insertedKeys st') = true /\
  Permutation (insertedKeys st') (insertedKeys st ++ nextKeys st) /\
  (forall r, frame (st_heap st' r) = frame (st_heap st r)).
Proof.
  unfold addKeyframes.
  destruct (interpolated st) as [[[ov iv] nv] | e]; [| discriminate].
  intros E. injection E as <-. cbn [st_heap insertedKeys].
  split; [apply sort_by_frame_sorted |].
  split; [apply sort_by_frame_perm |].
  intros r. rewrite !add_values_frame. reflexivity.
Qed.

(** C1.  Let [A] and [B] be non-empty ascending lists of distinct keyframe
    objects, with the first frame of [A] not above the first frame of [B]
    and the last frame of [A] above it, and let [addKeyframes] return.  Then
    every keyframe of [A] or [B] whose frame lies within both curves is in
    the merged list and keeps its frame; its value, and the value read from
    the merged curve at its frame, is the value of [A] plus the value of [B]
    at that frame, both read in the store before the call. *)
Theorem addKeyframes_sum (h : heap) (A B A' B' : list ref) (a0 b0 : ref)
        (st' : state) :
  A = a0 :: A' -> B = b0 :: B' ->
  is_ascending h A = true ->
  is_ascending h B = true ->
  NoDup (A ++ B) ->
  frame (h a0) <= frame (h b0) ->
  frame (h b0) < frame (h (last A a0)) ->
  addKeyframes (mkState h A B) = (Returned, st') ->
  forall k : ref,
    In k (A ++ B) ->
    in_domain h A (frame (h k)) ->
    in_domain h B (frame (h k)) ->
    In k (insertedKeys st') /\
    frame (st_heap st' k) = frame (h k) /\
    sum_at h A B (st_heap st') k /\
    sum_read h A B (st_heap st') (insertedKeys st') k.
Proof.
  intros EA EB SA SB ND H0 HL Run k Ik DA DB.
  pose proof (sum_of_samples h A B A' B' a0 b0 st'
                EA EB SA SB ND H0 HL Run) as Samples.
  destruct (Samples k Ik DA DB) as (Im & Fk & va & vb & Va & Vb & Vk).
  split; [exact Im |]. split; [exact Fk |].
  split; [exists va, vb; auto |].
  destruct (addKeyframes_returned _ _ Run) as (Sm & Pm & Fr).
  cbn [st_heap insertedKeys nextKeys] in Pm, Fr.
  assert (Dm : in_domain (st_heap st') (insertedKeys st') (frame (h k))).
  { rewrite <- Fk. apply is_sorted_in_domain; assumption. }
  assert (Lm : (2 <= length (insertedKeys st'))%nat).
  { rewrite (Permutation_length Pm), length_app, EA, EB. simpl. lia. }
  destruct (insertedKeys st') as [| m0 [| m1 ml]] eqn:Em;
    [simpl in Lm; lia | simpl in Lm; lia |].
  destruct (interval_loop_finds (st_heap st') (frame (h k)) (m1 :: ml) m0)
    as (p & q & F); [discriminate | apply Dm | apply Dm |].
  exists va, vb, (getValue (st_heap st' p) (st_heap st' q) (frame (h k))).
  split; [exact Va |]. split; [exact Vb |]. split.
  - rewrite (curveValue_in_domain _ _ _ Dm), F. reflexivity.
  - apply (interval_loop_sorted_at_sample (st_heap st') (frame (h k)) (va + vb)
                                          (m0 :: m1 :: ml) Sm).
    + exists k. split; [exact Im |]. rewrite Fk. reflexivity.
    + intros k' Ik' Ek'. rewrite Fr in Ek'.
      assert (Ik'' : In k' (A ++ B)) by (apply (Permutation_in _ Pm), Ik').
      destruct (Samples k' Ik'') as (_ & _ & va' & vb' & Va' & Vb' & Vk').
      * apply (in_domain_Qeq h A (frame (h k))); [symmetry; exact Ek' | exact DA].
      * apply (in_domain_Qeq h B (frame (h k))); [symmetry; exact Ek' | exact DB].
      * rewrite Vk'.
        rewrite (original_value_Qeq h A _ _ _ _ Ek' Va' Va).
        rewrite (original_value_Qeq h B _ _ _ _ Ek' Vb' Vb).
        reflexivity.
    + exact F.
Qed.

(** Two curves that only touch: the common frame 5 is within both curves,
    yet neither the keyframe of [insertedKeys] at that frame nor the merged
    curve read at that frame holds the sum [1 + 3]. *)
Lemma touching_curves_not_summed :
  is_ascending (st_heap touching_state) (insertedKeys touching_state) = true /\
  is_ascending (st_heap touching_state) (nextKeys touching_state) = true /\
  NoDup (insertedKeys touching_state ++ nextKeys touching_state) /\
  frame (st_heap touching_state 0%nat) <= frame (st_heap touching_state 2%nat) /\
  fst (addKeyframes touching_state) = Returned /\
  In 1%nat (insertedKeys touching_state ++ nextKeys touching_state) /\
  in_domain (st_heap touching_state) (insertedKeys touching_state)
            (frame (st_heap touching_state 1%nat)) /\
  in_domain (st_heap touching_state) (nextKeys touching_state)
            (frame (st_heap touching_state 1%nat)) /\
  ~ sum_at (st_heap touching_state) (insertedKeys touching_state)
           (nextKeys touching_state)
           (st_heap (snd (addKeyframes touching_state))) 1%nat /\
  ~ sum_read (st_heap touching_state) (insertedKeys touching_state)
             (nextKeys touching_state)
             (st_heap (snd (addKeyframes touching_state)))
             (insertedKeys (snd (addKeyframes touching_state))) 1%nat.
Proof.
  split; [reflexivity |]. split; [reflexivity |].
  split; [repeat constructor; simpl; intuition discriminate |].
  split; [vm_compute; discriminate |].
  split; [reflexivity |].
  split; [simpl; tauto |].
  split; [split; vm_compute; discriminate |].
  split; [split; vm_compute; discriminate |].
  split.
  - intros (va & vb & Va & Vb & E).
    destruct Va as [Va | (k & Ek & _)]; [| discriminate Ek].
    destruct Vb as [Vb | (k & Ek & _)]; [| discriminate Ek].
    vm_compute in Va. injection Va as <-.
    vm_compute in Vb. injection Vb as <-.
    vm_compute in E. discriminate E.
  - intros (va & vb & v & Va & Vb & V & E).
    destruct Va as [Va | (k & Ek & _)]; [| discriminate Ek].
    destruct Vb as [Vb | (k & Ek & _)]; [| discriminate Ek].
    vm_compute in Va. injection Va as <-.
    vm_compute in Vb. injection Vb as <-.
    vm_compute in V. injection V as <-.
    vm_compute in E. discriminate E.
Qed.

(** ** The theorems at the demonstration input *)

Lemma addKeyframes_sum_witness :
  sum_at (heap_of demo_objs) [0; 1; 2; 3]%nat [4; 5; 6; 7]%nat
         (st_heap (snd (addKeyframes demo_state))) 1%nat /\
  sum_read (heap_of demo_objs) [0; 1; 2; 3]%nat [4; 5; 6; 7]%nat
           (st_heap (snd (addKeyframes demo_state)))
           (insertedKeys (snd (addKeyframes demo_state))) 1%nat.
Proof.
  apply (addKeyframes_sum (heap_of demo_objs) [0; 1; 2; 3]%nat [4; 5; 6; 7]%nat
                          [1; 2; 3]%nat [5; 6; 7]%nat 0%nat 4%nat
                          (snd (addKeyframes demo_state))).
  - reflexivity.
  - reflexivity.
  - reflexivity.
  - reflexivity.
  - repeat constructor; simpl; intuition discriminate.
  - vm_compute; discriminate.
  - reflexivity.
  - reflexivity.
  - simpl; tauto.
  - split; vm_compute; discriminate.
  - split; vm_compute; discriminate.
Defined.

Lemma addKeyframes_order_error_witness :
  fst (addKeyframes swapped_state) = Raised ValueError /\
  fst (addKeyframes (mkState (heap_of demo_objs) [0; 1; 2; 3]%nat [])) = Returned.
Proof.
  split.
  - apply (proj1 addKeyframes_order_error swapped_state 4%nat 0%nat
                 [5; 6; 7]%nat [1; 2; 3]%nat eq_refl eq_refl).
    reflexivity.
  - apply (proj2 addKeyframes_order_error). right. reflexivity.
Defined.

Lemma addKeyframes_ValueError_unchanged_witness :
  snd (addKeyframes swapped_state) = swapped_state.
Proof.
  apply (addKeyframes_ValueError_unchanged swapped_state). reflexivity.
Defined.

Lemma addKeyframes_empty_next_witness :
  addKeyframes (mkState (heap_of demo_objs) [0; 1; 2; 3]%nat []) =
    (Returned, mkState (heap_of demo_objs) [0; 1; 2; 3]%nat []).
Proof.
  apply (addKeyframes_empty_next (heap_of demo_objs) [0; 1; 2; 3]%nat).
  reflexivity.
Defined.

Lemma addKeyframes_sorted_length_witness :
  is_sorted (st_heap (snd (addKeyframes demo_state)))
            (insertedKeys (snd (addKeyframes demo_state))) = true /\
  length (insertedKeys (snd (addKeyframes demo_state))) = (4 + 4)%nat.
Proof.
  apply (addKeyframes_sorted_length demo_state (snd (addKeyframes demo_state))).
  reflexivity.
Defined.

Lemma findOverlap_sorted_witness :
  exists pre b suf overlap,
    [0; 1; 2; 3]%nat = pre ++ b :: suf /\
    Forall (fun k => frame (heap_of demo_objs k) <= frame (heap_of demo_objs 4%nat))
           (pre ++ [b]) /\
    Forall (fun k => frame (heap_of demo_objs 4%nat) < frame (heap_of demo_objs k))
           suf /\
    findOverlap (heap_of demo_objs) [0; 1; 2; 3]%nat [4; 5; 6; 7]%nat = Ok overlap /\
    overlap = match suf with [] => [] | _ => b :: suf end /\
    is_sorted (heap_of demo_objs) overlap = true /\
    (frame (heap_of demo_objs (last [0; 1; 2; 3]%nat 0%nat))
       <= frame (heap_of demo_objs 4%nat) -> overlap = []).
Proof.
  apply (findOverlap_sorted (heap_of demo_objs) [0; 1; 2; 3]%nat
                            [4; 5; 6; 7]%nat [1; 2; 3]%nat [5; 6; 7]%nat).
  - reflexivity.
  - reflexivity.
  - reflexivity.
  - reflexivity.
  - vm_compute; discriminate.
Defined.

Lemma findOverlap_not_singleton_witness :
  exists overlap,
    findOverlap (heap_of demo_objs) [0; 1; 2; 3]%nat [4; 5; 6; 7]%nat = Ok overlap /\
    (overlap = [] \/ (2 <= length overlap)%nat).
Proof.
  apply (findOverlap_not_singleton (heap_of demo_objs) [0; 1; 2; 3]%nat
                                   [4; 5; 6; 7]%nat [1; 2; 3]%nat [5; 6; 7]%nat
                                   0%nat 4%nat).
  - reflexivity.
  - reflexivity.
  - reflexivity.
  - reflexivity.
  - vm_compute; discriminate.
Defined.

(** * Further properties of the functions *)

(** ** getValue *)





(** ** interval *)

(** One keyframe taken twice gives its value at every frame. *)
Lemma getValue_same_key (k : Keyframe) (t : Q) : getValue k k t == value k.
Proof.
  unfold getValue.
  rewrite (slope_equal_frames k k) by reflexivity. ring.
Qed.

Section IntervalResult.

Variable h : heap.

(** The pair found by the loop: two neighbours around [t], with no such
    neighbours before them. *)
Lemma interval_loop_first_bracket (t : Q) (l : list ref) :
  forall p q : ref,
    interval_loop h l t = Some (p, q) ->
    exists l1 l2,
      l = l1 ++ p :: q :: l2 /\
      frame (h p) <= t /\ t <= frame (h q) /\
      forall l3 x y l4,
        l1 ++ [p] = l3 ++ x :: y :: l4 ->
        ~ (frame (h x) <= t /\ t <= frame (h y)).
Proof.
  induction l as [| x l IH]; intros p q F; [discriminate |].
  destruct l as [| y l]; [discriminate |].
  cbn [interval_loop] in F.
  destruct (Qle_bool (frame (h x)) t && Qle_bool t (frame (h y))) eqn:C.
  - injection F as <- <-.
    apply andb_true_iff in C. destruct C as [Cx Cy].
    apply Qle_bool_iff in Cx, Cy.
    exists [], l. split; [reflexivity |].
    split; [exact Cx |]. split; [exact Cy |].
    intros l3 x' y' l4 E. apply (f_equal (@length ref)) in E.
    rewrite !length_app in E. simpl in E. lia.
  - destruct (IH p q F) as (l1 & l2 & E & Hp & Hq & First).
    exists (x :: l1), l2. split; [cbn [app]; rewrite <- E; reflexivity |].
    split; [exact Hp |]. split; [exact Hq |].
    intros l3 x' y' l4 E' [Hx' Hy'].
    destruct l3 as [| z l3]; cbn [app] in E'.
    + injection E' as <- E'.
      assert (Ey : y' = y).
      { destruct l1 as [| w l1]; cbn [app] in E, E'.
        - injection E as -> _. injection E' as <- _. reflexivity.
        - injection E as -> _. injection E' as <- _. reflexivity. }
      subst y'.
      apply Qle_bool_iff in Hx', Hy'. rewrite Hx', Hy' in C. discriminate.
    + injection E' as _ E'. apply (First l3 x' y' l4 E'). auto.
Qed.

(** X3.  The pair that [interval] returns is one of three: the first key
    twice, when the frame is before it; the last key twice, when the frame
    is after it; or two neighbours of the list with the frame between their
    frames, and no earlier neighbours with the frame between theirs. *)
Theorem interval_bracket (keyList : list ref) (t : Q) (p q : ref) :
  interval h keyList t = KeyPair p q ->
  exists k0 l,
    keyList = k0 :: l /\
    ((p = k0 /\ q = k0 /\ t < frame (h k0)) \/
     (p = last keyList k0 /\ q = last keyList k0 /\
      frame (h k0) <= t /\ frame (h (last keyList k0)) < t) \/
     (frame (h k0) <= t /\ t <= frame (h (last keyList k0)) /\
      exists l1 l2,
        keyList = l1 ++ p :: q :: l2 /\
        frame (h p) <= t /\ t <= frame (h q) /\
        forall l3 x y l4,
          l1 ++ [p] = l3 ++ x :: y :: l4 ->
          ~ (frame (h x) <= t /\ t <= frame (h y)))).
Proof.
  destruct keyList as [| k0 l]; [discriminate |].
  intros I. exists k0, l. split; [reflexivity |].
  unfold interval in I.
  destruct (Qgtb (frame (h k0)) t) eqn:G.
  - injection I as <- <-. apply Qgtb_gt in G. left. auto.
  - apply Qgtb_le in G.
    destruct (Qltb (frame (h (last (k0 :: l) k0))) t) eqn:L.
    + injection I as <- <-. apply Qltb_lt in L. right. left. auto.
    + apply Qltb_ge in L. right. right.
      split; [exact G |]. split; [exact L |].
      destruct (interval_loop h (k0 :: l) t) as [[a b] |] eqn:F;
        [| discriminate].
      injection I as <- <-.
      apply interval_loop_first_bracket, F.
Qed.

Lemma interval_loop_In (t : Q) (l : list ref) :
  forall p q : ref,
    interval_loop h l t = Some (p, q) -> In p l /\ In q l.
Proof.
  intros p q F.
  destruct (interval_loop_first_bracket t l p q F) as (l1 & l2 & -> & _).
  split; apply in_or_app; right; simpl; auto.
Qed.

(** X4.  On a list of two keys or more, sorted or not, [interval] returns a
    pair of keys of the list, at every frame. *)
Theorem interval_returns_pair (keyList : list ref) (t : Q) :
  (2 <= length keyList)%nat ->
  exists p q,
    interval h keyList t = KeyPair p q /\ In p keyList /\ In q keyList.
Proof.
  intros L.
  destruct (interval h keyList t) as [| p q |] eqn:I.
  - apply interval_NonePair in I. subst. simpl in L. lia.
  - exists p, q. split; [reflexivity |].
    destruct keyList as [| k0 l]; [discriminate |].
    unfold interval in I.
    destruct (Qgtb (frame (h k0)) t).
    + injection I as <- <-. split; left; reflexivity.
    + destruct (Qltb (frame (h (last (k0 :: l) k0))) t).
      * injection I as <- <-. split; apply last_cons_In.
      * destruct (interval_loop h (k0 :: l) t) as [[a b] |] eqn:F;
          [| discriminate].
        injection I as <- <-. apply (interval_loop_In t), F.
  - apply interval_NoneValue_iff in I. destruct I as (k & -> & _).
    simpl in L. lia.
Qed.

(** X5.  Outside the frames of a list the curve is flat: before the first
    key [interval] and [getValue] give the first key's value, and after the
    last key (and not before the first) the last key's value. *)
Theorem curveValue_outside_domain (k0 : ref) (l : list ref) (t : Q) :
  (t < frame (h k0) ->
   exists v, curveValue h (k0 :: l) t = Some v /\ v == value (h k0)) /\
  (frame (h k0) <= t -> frame (h (last (k0 :: l) k0)) < t ->
   exists v, curveValue h (k0 :: l) t = Some v /\
             v == value (h (last (k0 :: l) k0))).
Proof.
  split.
  - intros G. apply Qgtb_gt in G.
    exists (getValue (h k0) (h k0) t). split.
    + unfold curveValue, interval. rewrite G. reflexivity.
    + apply getValue_same_key.
  - intros G L. apply Qgtb_le in G. apply Qltb_lt in L.
    exists (getValue (h (last (k0 :: l) k0)) (h (last (k0 :: l) k0)) t). split.
    + unfold curveValue, interval. rewrite G, L. reflexivity.
    + apply getValue_same_key.
Qed.

End IntervalResult.

Lemma interval_bracket_witness :
  exists k0 l,
    [4; 5; 6; 7]%nat = k0 :: l /\
    ((6%nat = k0 /\ 7%nat = k0 /\ 33 < frame (heap_of demo_objs k0)) \/
     (6%nat = last [4; 5; 6; 7]%nat k0 /\ 7%nat = last [4; 5; 6; 7]%nat k0 /\
      frame (heap_of demo_objs k0) <= 33 /\
      frame (heap_of demo_objs (last [4; 5; 6; 7]%nat k0)) < 33) \/
     (frame (heap_of demo_objs k0) <= 33 /\
      33 <= frame (heap_of demo_objs (last [4; 5; 6; 7]%nat k0)) /\
      exists l1 l2,
        [4; 5; 6; 7]%nat = l1 ++ 6%nat :: 7%nat :: l2 /\
        frame (heap_of demo_objs 6%nat) <= 33 /\
        33 <= frame (heap_of demo_objs 7%nat) /\
        forall l3 x y l4,
          l1 ++ [6%nat] = l3 ++ x :: y :: l4 ->
          ~ (frame (heap_of demo_objs x) <= 33 /\
             33 <= frame (heap_of demo_objs y)))).
Proof.
  apply (interval_bracket (heap_of demo_objs) [4; 5; 6; 7]%nat 33 6%nat 7%nat). reflexivity.
Defined.

Lemma interval_returns_pair_witness :
  exists p q,
    interval (heap_of demo_objs) [3; 1; 2]%nat 16 = KeyPair p q /\
    In p [3; 1; 2]%nat /\ In q [3; 1; 2]%nat.
Proof.
  apply (interval_returns_pair (heap_of demo_objs) [3; 1; 2]%nat 16). simpl. lia.
Defined.

Lemma curveValue_outside_domain_witness :
  exists v, curveValue (heap_of demo_objs) [4; 5; 6; 7]%nat 3 = Some v /\
            v == value (heap_of demo_objs 4%nat).
Proof.
  apply (proj1 (curveValue_outside_domain (heap_of demo_objs) 4%nat
                                          [5; 6; 7]%nat 3)).
  reflexivity.
Defined.

(** ** findOverlap *)

Section OverlapResult.

Variable h : heap.

(** The two ways for [findOverlap] to return: an empty list, or the
    boundary key and the keys after it. *)
Lemma findOverlap_Ok_inv (A B ov : list ref) :
  findOverlap h A B = Ok ov ->
  ov = [] \/
  exists a0 A' b0 B' pre b s suf,
    A = a0 :: A' /\ B = b0 :: B' /\
    frame (h a0) <= frame (h b0) /\
    A = pre ++ b :: s :: suf /\
    ov = b :: s :: suf /\
    frame (h b) <= frame (h b0) /\
    Forall (fun k => frame (h b0) < frame (h k)) (s :: suf).
Proof.
  intros F.
  destruct A as [| a0 A']; [injection F as <-; left; reflexivity |].
  destruct B as [| b0 B']; [injection F as <-; left; reflexivity |].
  destruct (Qgtb (frame (h a0)) (frame (h b0))) eqn:G.
  - unfold findOverlap in F. rewrite G in F. discriminate.
  - apply Qgtb_le in G.
    destruct (findOverlap_split h (a0 :: A') (b0 :: B') A' B' a0 b0
                                eq_refl eq_refl G)
      as (pre & b & suf & E & Hb & Hs & F').
    rewrite F' in F. injection F as <-.
    destruct suf as [| s suf]; [left; reflexivity |].
    right. exists a0, A', b0, B', pre, b, s, suf. auto 10.
Qed.

(** X6.  The list that [findOverlap] returns is a suffix of its first
    argument: the same keys, in the same order, up to the end. *)
Theorem findOverlap_suffix (A B ov : list ref) :
  findOverlap h A B = Ok ov ->
  exists pre, A = pre ++ ov /\ (length ov <= length A)%nat.
Proof.
  intros F.
  destruct (findOverlap_Ok_inv A B ov F)
    as [-> | (a0 & A' & b0 & B' & pre & b & s & suf & _ & _ & _ & E & -> & _)].
  - exists A. split; [symmetry; apply app_nil_r | simpl; lia].
  - exists pre. split; [exact E |].
    rewrite E, length_app. lia.
Qed.

(** X7.  Under the order precondition, and whether the first list is sorted
    or not, [findOverlap] returns the empty list exactly when the last frame
    of the first list is not above the first frame of the second. *)
Theorem findOverlap_empty_iff (A B A' B' : list ref) (a0 b0 : ref) :
  A = a0 :: A' -> B = b0 :: B' ->
  frame (h a0) <= frame (h b0) ->
  (findOverlap h A B = Ok [] <-> frame (h (last A a0)) <= frame (h b0)).
Proof.
  intros EA EB H0.
  destruct (findOverlap_split h A B A' B' a0 b0 EA EB H0)
    as (pre & b & suf & E & Hb & Hs & F).
  rewrite F, E, last_app_cons.
  destruct suf as [| s suf].
  - cbn [last]. tauto.
  - split; [discriminate |].
    intros HL. exfalso.
    change (b :: s :: suf) with ([b] ++ s :: suf) in HL.
    rewrite last_app_cons in HL.
    rewrite Forall_forall in Hs.
    apply (Qlt_not_le _ _ (Hs _ (last_cons_In s suf a0)) HL).
Qed.

End OverlapResult.

Lemma findOverlap_suffix_witness :
  exists pre,
    [0; 1; 2; 3]%nat = pre ++ [2; 3]%nat /\
    (length [2; 3]%nat <= length [0; 1; 2; 3]%nat)%nat.
Proof.
  apply (findOverlap_suffix (heap_of demo_objs) [0; 1; 2; 3]%nat
                            [6; 7]%nat [2; 3]%nat).
  reflexivity.
Defined.

Lemma findOverlap_empty_iff_witness :
  findOverlap (st_heap touching_state) (insertedKeys touching_state)
              (nextKeys touching_state) = Ok [].
Proof.
  apply (findOverlap_empty_iff (st_heap touching_state) [0; 1]%nat [2; 3]%nat
                               [1]%nat [3]%nat 0%nat 2%nat eq_refl eq_refl).
  - vm_compute; discriminate.
  - vm_compute; discriminate.
Defined.

(** ** addKeyframes: what the call changes *)

Lemma findOverlap_is_suffix (h : heap) (A B ov : list ref) :
  findOverlap h A B = Ok ov -> exists pre, A = pre ++ ov.
Proof.
  intros F.
  destruct (findOverlap_Ok_inv h A B ov F)
    as [-> | (a0 & A' & b0 & B' & pre & b & s & suf & _ & _ & _ & E & -> & _)].
  - exists A. symmetry. apply app_nil_r.
  - exists pre. exact E.
Qed.

Lemma findOverlap_no_next (h : heap) (A : list ref) :
  findOverlap h A [] = Ok [].
Proof. destruct A; reflexivity. Qed.

(** The steps of a call that returns. *)
Lemma addKeyframes_Returned_inv (h : heap) (A B : list ref) (st' : state) :
  addKeyframes (mkState h A B) = (Returned, st') ->
  exists ov iv nv,
    findOverlap h A B = Ok ov /\
    interpolate h ov B = Ok nv /\
    interpolate h B ov = Ok iv /\
    st' = mkState (add_values (add_values h ov iv) B nv)
                  (sort_by_frame (add_values (add_values h ov iv) B nv)
                                 (A ++ B))
                  B.
Proof.
  unfold addKeyframes, interpolated. cbn [st_heap insertedKeys nextKeys].
  destruct (findOverlap h A B) as [ov | e]; [| discriminate].
  cbn [bind].
  destruct (interpolate h ov B) as [nv | e1] eqn:I1; [| discriminate].
  cbn [bind].
  destruct (interpolate h B ov) as [iv | e2] eqn:I2; [| discriminate].
  cbn [bind]. intros E. injection E as <-.
  exists ov, iv, nv. auto.
Qed.

Lemma add_values_no_interps (h : heap) (keys : list ref) :
  add_values h keys [] = h.
Proof. destruct keys; reflexivity. Qed.

(** The store after a call on lists of distinct objects, in terms of the
    store before the call. *)
Lemma store_after_addKeyframes (h : heap) (A B : list ref) (st' : state) :
  NoDup (A ++ B) ->
  addKeyframes (mkState h A B) = (Returned, st') ->
  exists ov,
    findOverlap h A B = Ok ov /\
    (forall k, In k ov ->
       exists v, curveValue h B (frame (h k)) = Some v /\
                 st_heap st' k = mkKeyframe (frame (h k)) (value (h k) + v)) /\
    (forall k, In k B -> ov <> [] ->
       exists v, curveValue h ov (frame (h k)) = Some v /\
                 st_heap st' k = mkKeyframe (frame (h k)) (value (h k) + v)) /\
    (ov = [] -> st_heap st' = h) /\
    (forall k, ~ In k ov -> ~ In k B -> st_heap st' k = h k).
Proof.
  intros ND Run.
  destruct (addKeyframes_Returned_inv h A B st' Run)
    as (ov & iv & nv & F & I1 & I2 & ->).
  cbn [st_heap].
  destruct (findOverlap_is_suffix h A B ov F) as (pre & E).
  assert (NDB : NoDup B) by (apply NoDup_app_remove_l in ND; exact ND).
  assert (NDov : NoDup ov).
  { apply NoDup_app_remove_r in ND. rewrite E in ND.
    apply NoDup_app_remove_l in ND. exact ND. }
  assert (Dis : forall k, In k ov -> ~ In k B).
  { intros k Ik. apply (NoDup_app_disjoint A B k ND).
    rewrite E. apply in_or_app. right. exact Ik. }
  exists ov. split; [exact F |].
  split; [| split; [| split]].
  - intros k Ik.
    assert (NB : B <> []).
    { intros ->. rewrite findOverlap_no_next in F. injection F as <-.
      destruct Ik. }
    apply (interpolate_Forall2 h B NB) in I2.
    destruct (add_values_Forall2 _ ov iv I2 NDov h k Ik) as (kv & Rk & Ek).
    exists (value kv). split; [exact Rk |].
    rewrite add_values_notin by (apply Dis, Ik). exact Ek.
  - intros k Ik Nov.
    apply (interpolate_Forall2 h ov Nov) in I1.
    destruct (add_values_Forall2 _ B nv I1 NDB (add_values h ov iv) k Ik)
      as (kv & Rk & Ek).
    exists (value kv). split; [exact Rk |].
    rewrite Ek, add_values_notin; [reflexivity |].
    intros Iov. exact (Dis k Iov Ik).
  - intros ->. rewrite interpolate_no_keyList in I1. injection I1 as <-.
    rewrite add_values_no_interps. reflexivity.
  - intros k Nov NB. rewrite !add_values_notin by assumption. reflexivity.
Qed.



(** X9.  On lists of distinct objects, a call that returns adds to each key
    of the overlap the value of [nextKeys] at its frame, and to each key of
    [nextKeys] the value of the overlap at its frame, both read in the store
    before the call; with an empty overlap the store is as before, and the
    keys of [insertedKeys] before the overlap are as before. *)
Theorem addKeyframes_store (h : heap) (A B : list ref) (st' : state) :
  NoDup (A ++ B) ->
  addKeyframes (mkState h A B) = (Returned, st') ->
  exists ov,
    findOverlap h A B = Ok ov /\
    (forall k, In k ov ->
       exists v, curveValue h B (frame (h k)) = Some v /\
                 st_heap st' k = mkKeyframe (frame (h k)) (value (h k) + v)) /\
    (forall k, In k B -> ov <> [] ->
       exists v, curveValue h ov (frame (h k)) = Some v /\
                 st_heap st' k = mkKeyframe (frame (h k)) (value (h k) + v)) /\
    (ov = [] -> st_heap st' = h) /\
    (forall k, In k A -> ~ In k ov -> st_heap st' k = h k).
Proof.
  intros ND Run.
  destruct (store_after_addKeyframes h A B st' ND Run)
    as (ov & F & Hov & HB & Hnil & Hout).
  exists ov. split; [exact F |]. split; [exact Hov |].
  split; [exact HB |]. split; [exact Hnil |].
  intros k IA Nov. apply Hout; [exact Nov |].
  apply (NoDup_app_disjoint A B k ND IA).
Qed.

Lemma addKeyframes_store_witness :
  exists ov,
    findOverlap (heap_of demo_objs) [0; 1; 2; 3]%nat [4; 5; 6; 7]%nat = Ok ov /\
    (forall k, In k ov ->
       exists v,
         curveValue (heap_of demo_objs) [4; 5; 6; 7]%nat
                    (frame (heap_of demo_objs k)) = Some v /\
         st_heap (snd (addKeyframes demo_state)) k =
           mkKeyframe (frame (heap_of demo_objs k))
                      (value (heap_of demo_objs k) + v)) /\
    (forall k, In k [4; 5; 6; 7]%nat -> ov <> [] ->
       exists v,
         curveValue (heap_of demo_objs) ov (frame (heap_of demo_objs k))
           = Some v /\
         st_heap (snd (addKeyframes demo_state)) k =
           mkKeyframe (frame (heap_of demo_objs k))
                      (value (heap_of demo_objs k) + v)) /\
    (ov = [] -> st_heap (snd (addKeyframes demo_state)) = heap_of demo_objs) /\
    (forall k, In k [0; 1; 2; 3]%nat -> ~ In k ov ->
       st_heap (snd (addKeyframes demo_state)) k = heap_of demo_objs k).
Proof.
  apply (addKeyframes_store (heap_of demo_objs) [0; 1; 2; 3]%nat
                            [4; 5; 6; 7]%nat).
  - repeat constructor; simpl; intuition discriminate.
  - reflexivity.
Defined.

(** ** addKeyframes: outside the common frames, and without overlap *)

(** [findOverlap] on a given split of its first argument. *)
Lemma findOverlap_of_split (h : heap) (pre suf B' : list ref) (b b0 : ref) :
  (forall a0 A', pre ++ b :: suf = a0 :: A' -> frame (h a0) <= frame (h b0)) ->
  frame (h b) <= frame (h b0) ->
  Forall (fun k => frame (h b0) < frame (h k)) suf ->
  findOverlap h (pre ++ b :: suf) (b0 :: B') =
    Ok (match suf with [] => [] | _ => b :: suf end).
Proof.
  intros H0 Hb Hs.
  destruct (pre ++ b :: suf) as [| a0 A'] eqn:E.
  { destruct pre; discriminate. }
  specialize (H0 a0 A' eq_refl).
  unfold findOverlap. apply Qgtb_le in H0. rewrite H0, <- E.
  rewrite rev_app_distr. cbn [rev]. rewrite <- app_assoc. cbn [app].
  rewrite findOverlap_loop_boundary;
    [| apply Forall_rev, Hs | exact Hb].
  cbn [orb app]. destruct suf as [| s suf]; [reflexivity |].
  assert (N : rev (s :: suf) <> []).
  { intros C. apply (f_equal (@length ref)) in C.
    rewrite length_rev in C. discriminate. }
  destruct (rev (s :: suf)) as [| r rs] eqn:R; [congruence |].
  rewrite <- R, rev_app_distr, rev_involutive. reflexivity.
Qed.

(** With the last frame of the first list above the first frame of the
    second, the overlap has two keys or more. *)
Lemma findOverlap_nonempty (h : heap) (A B A' B' : list ref) (a0 b0 : ref) :
  A = a0 :: A' -> B = b0 :: B' ->
  frame (h a0) <= frame (h b0) ->
  frame (h b0) < frame (h (last A a0)) ->
  exists pre b s suf,
    A = pre ++ b :: s :: suf /\
    findOverlap h A B = Ok (b :: s :: suf) /\
    frame (h b) <= frame (h b0) /\
    Forall (fun k => frame (h b0) < frame (h k)) (s :: suf).
Proof.
  intros EA EB H0 HL.
  destruct (findOverlap_split h A B A' B' a0 b0 EA EB H0)
    as (pre & b & suf & E & Hb & Hs & F).
  destruct suf as [| s suf].
  - exfalso. rewrite E, last_app_cons in HL. cbn [last] in HL. lra.
  - exists pre, b, s, suf. auto.
Qed.

(** With the last frame of the first list not above the first frame of the
    second, there is no overlap. *)
Lemma findOverlap_last_le (h : heap) (A B A' B' : list ref) (a0 b0 : ref) :
  A = a0 :: A' -> B = b0 :: B' ->
  frame (h a0) <= frame (h b0) ->
  frame (h (last A a0)) <= frame (h b0) ->
  findOverlap h A B = Ok [].
Proof.
  intros EA EB H0 HL.
  destruct (findOverlap_split h A B A' B' a0 b0 EA EB H0)
    as (pre & b & suf & E & Hb & Hs & F).
  rewrite F. destruct suf as [| s suf]; [reflexivity |]. exfalso.
  rewrite E in HL.
  change (pre ++ b :: s :: suf) with (pre ++ [b] ++ s :: suf) in HL.
  rewrite app_assoc, last_app_cons in HL.
  rewrite Forall_forall in Hs.
  apply (Qlt_not_le _ _ (Hs _ (last_cons_In s suf a0)) HL).
Qed.

(** X10.  Outside the common frames the other curve counts as flat.  On
    lists of distinct objects that overlap, with [nextKeys] sorted, a call
    that returns adds the last value of [insertedKeys] to every key of
    [nextKeys] after the last frame of [insertedKeys], and adds the first
    value of [nextKeys] to a key of the overlap before the first frame of
    [nextKeys]. *)
Theorem addKeyframes_flat_outside (h : heap) (A B A' B' : list ref)
        (a0 b0 : ref) (st' : state) :
  A = a0 :: A' -> B = b0 :: B' ->
  NoDup (A ++ B) ->
  is_sorted h B = true ->
  frame (h a0) <= frame (h b0) ->
  frame (h b0) < frame (h (last A a0)) ->
  addKeyframes (mkState h A B) = (Returned, st') ->
  (forall k, In k B -> frame (h (last A a0)) < frame (h k) ->
     value (st_heap st' k) == value (h k) + value (h (last A a0))) /\
  (forall k ov, findOverlap h A B = Ok ov -> In k ov ->
     frame (h k) < frame (h b0) ->
     value (st_heap st' k) == value (h k) + value (h b0)).
Proof.
  intros EA EB ND SB H0 HL Run.
  destruct (store_after_addKeyframes h A B st' ND Run)
    as (ov & F & Hov & HB & _ & _).
  destruct (findOverlap_nonempty h A B A' B' a0 b0 EA EB H0 HL)
    as (pre & b & s & suf & E & F' & Hb & Hs).
  rewrite F' in F. injection F as <-.
  split.
  - intros k Ik Hk.
    destruct (HB k Ik) as (v & V & ->); [discriminate |].
    cbn [value]. apply Qplus_comp; [reflexivity |].
    assert (Hbk : frame (h b0) <= frame (h k)).
    { rewrite EB in Ik, SB. destruct Ik as [<- | Ik]; [apply Qle_refl |].
      pose proof (is_sorted_head_le h _ _ SB) as Hall.
      rewrite Forall_forall in Hall. apply Hall, Ik. }
    assert (EL : last (b :: s :: suf) b = last A a0).
    { rewrite E, last_app_cons. apply last_cons_default. }
    unfold curveValue, interval in V.
    rewrite (proj2 (Qgtb_le _ _)) in V by lra.
    rewrite EL in V.
    rewrite (proj2 (Qltb_lt _ _) Hk) in V.
    injection V as <-. apply getValue_same_key.
  - intros k ov F Ik Hk. rewrite F' in F. injection F as <-.
    destruct (Hov k Ik) as (v & V & ->).
    cbn [value]. apply Qplus_comp; [reflexivity |].
    rewrite EB in V. unfold curveValue, interval in V.
    rewrite (proj2 (Qgtb_gt _ _) Hk) in V.
    injection V as <-. apply getValue_same_key.
Qed.

Lemma addKeyframes_flat_outside_witness :
  (forall k, In k [4; 5; 6; 7]%nat ->
     frame (heap_of demo_objs (last [0; 1; 2; 3]%nat 0%nat))
       < frame (heap_of demo_objs k) ->
     value (st_heap (snd (addKeyframes demo_state)) k) ==
     value (heap_of demo_objs k)
       + value (heap_of demo_objs (last [0; 1; 2; 3]%nat 0%nat))) /\
  (forall k ov,
     findOverlap (heap_of demo_objs) [0; 1; 2; 3]%nat [4; 5; 6; 7]%nat = Ok ov ->
     In k ov ->
     frame (heap_of demo_objs k) < frame (heap_of demo_objs 4%nat) ->
     value (st_heap (snd (addKeyframes demo_state)) k) ==
     value (heap_of demo_objs k) + value (heap_of demo_objs 4%nat)).
Proof.
  apply (addKeyframes_flat_outside (heap_of demo_objs) [0; 1; 2; 3]%nat
                                   [4; 5; 6; 7]%nat [1; 2; 3]%nat
                                   [5; 6; 7]%nat 0%nat 4%nat).
  - reflexivity.
  - reflexivity.
  - repeat constructor; simpl; intuition discriminate.
  - reflexivity.
  - vm_compute; discriminate.
  - reflexivity.
  - reflexivity.
Defined.

Lemma is_sorted_app (h : heap) (l1 l2 : list ref) :
  is_sorted h l1 = true ->
  is_sorted h l2 = true ->
  (forall a b l1' l2',
      l1 = a :: l1' -> l2 = b :: l2' ->
      frame (h (last l1 a)) <= frame (h b)) ->
  is_sorted h (l1 ++ l2) = true.
Proof.
  induction l1 as [| x l1 IH]; intros S1 S2 HL; [exact S2 |].
  destruct l1 as [| y l1].
  - cbn [app]. destruct l2 as [| b l2]; [reflexivity |].
    apply is_sorted_cons. split; [| exact S2].
    apply (HL x b [] l2 eq_refl eq_refl).
  - cbn [app]. apply is_sorted_cons.
    apply is_sorted_cons in S1. destruct S1 as [Hxy S1].
    split; [exact Hxy |].
    apply IH; [exact S1 | exact S2 |].
    intros a b l1' l2' Ea Eb. injection Ea as <- <-.
    pose proof (HL x b (y :: l1) l2' eq_refl Eb) as Hb.
    change (last (x :: y :: l1) x) with (last (y :: l1) x) in Hb.
    rewrite (last_cons_default y l1 y x). exact Hb.
Qed.

(** X11.  Two sorted lists that do not overlap (the last frame of
    [insertedKeys] is not above the first frame of [nextKeys], or one list is
    empty) are only concatenated: the call returns, the store is as before
    and [insertedKeys] is the first list followed by the second. *)
Theorem addKeyframes_concat (h : heap) (A B : list ref) :
  is_sorted h A = true ->
  is_sorted h B = true ->
  (forall a0 b0 A' B',
      A = a0 :: A' -> B = b0 :: B' ->
      frame (h (last A a0)) <= frame (h b0)) ->
  addKeyframes (mkState h A B) = (Returned, mkState h (A ++ B) B).
Proof.
  intros SA SB HL.
  assert (F : findOverlap h A B = Ok []).
  { destruct A as [| a0 A']; [reflexivity |].
    destruct B as [| b0 B']; [reflexivity |].
    specialize (HL a0 b0 A' B' eq_refl eq_refl).
    apply (findOverlap_last_le h _ _ A' B' a0 b0 eq_refl eq_refl);
      [| exact HL].
    destruct (is_sorted_in_domain h (a0 :: A') a0 SA) as [_ Ha];
      [left; reflexivity |].
    eapply Qle_trans; eassumption. }
  unfold addKeyframes, interpolated. cbn [st_heap insertedKeys nextKeys].
  rewrite F. cbn [bind]. rewrite interpolate_no_keyList.
  cbn [bind interpolate add_values]. rewrite add_values_no_interps.
  rewrite (sort_by_frame_sorted_id h (A ++ B)); [reflexivity |].
  apply is_sorted_app; assumption.
Qed.

Lemma addKeyframes_concat_witness :
  addKeyframes touching_state =
    (Returned, mkState (st_heap touching_state) ([0; 1]%nat ++ [2; 3]%nat)
                       [2; 3]%nat).
Proof.
  apply (addKeyframes_concat (st_heap touching_state) [0; 1]%nat [2; 3]%nat).
  - reflexivity.
  - reflexivity.
  - intros a0 b0 A' B' EA EB. injection EA as <- <-. injection EB as <- <-.
    vm_compute. discriminate.
Defined.

(** ** addKeyframes: when it raises TypeError, and when it returns *)

Lemma interpolate_raises_iff (h : heap) (keyList keys : list ref) :
  interpolate h keyList keys = Raise TypeError <->
  exists key, In key keys /\ interval h keyList (frame (h key)) = NoneValue.
Proof.
  induction keys as [| key keys IH]; cbn [interpolate].
  - split; [discriminate | intros (k & [] & _)].
  - destruct (interval h keyList (frame (h key))) as [| p q |] eqn:I.
    + rewrite IH. split.
      * intros (k & Ik & Hk). exists k. split; [right; exact Ik | exact Hk].
      * intros (k & [<- | Ik] & Hk); [congruence |]. exists k. auto.
    + destruct (interpolate h keyList keys) as [rest | e] eqn:R; cbn [bind].
      * split; [discriminate |].
        intros (k & [<- | Ik] & Hk); [congruence |].
        assert (C : Ok rest = Raise TypeError) by (apply IH; exists k; auto).
        discriminate C.
      * split.
        -- intros E. injection E as ->.
           destruct (proj1 IH eq_refl) as (k & Ik & Hk).
           exists k. split; [right; exact Ik | exact Hk].
        -- intros _. f_equal. apply (interpolate_raises h keyList keys e R).
    + split; [| reflexivity]. intros _. exists key. split; [left |]; auto.
Qed.

(** A [TypeError] comes from the second loop: [nextKeys] has one key, and a
    key of the overlap is at its frame. *)
Lemma addKeyframes_TypeError_inv (h : heap) (A B : list ref) :
  fst (addKeyframes (mkState h A B)) = Raised TypeError ->
  exists b0 ov key,
    B = [b0] /\ findOverlap h A B = Ok ov /\
    In key ov /\ frame (h b0) == frame (h key).
Proof.
  unfold addKeyframes, interpolated. cbn [st_heap insertedKeys nextKeys].
  destruct (findOverlap h A B) as [ov | e] eqn:F; cbn [bind].
  - destruct (interpolate h ov B) as [nv | e1] eqn:I1; cbn [bind].
    + destruct (interpolate h B ov) as [iv | e2] eqn:I2; cbn [bind];
        [discriminate |].
      intros _.
      rewrite (interpolate_raises h B ov e2 I2) in I2.
      apply interpolate_raises_iff in I2. destruct I2 as (key & Ik & N).
      apply interval_NoneValue_iff in N. destruct N as (b0 & -> & Eb).
      exists b0, ov, key. auto.
    + intros _. exfalso.
      rewrite (interpolate_raises h ov B e1 I1) in I1.
      apply interpolate_raises_iff in I1. destruct I1 as (key & _ & N).
      apply interval_NoneValue_iff in N. destruct N as (k & -> & _).
      destruct (findOverlap_Ok_inv h A B [k] F)
        as [C | (? & ? & ? & ? & ? & ? & ? & ? & _ & _ & _ & _ & C & _)];
        discriminate C.
  - intros E. simpl in E. injection E as ->.
    apply findOverlap_raises in F. destruct F as [C _]. discriminate C.
Qed.

(** X12.  Under the order precondition, [addKeyframes] raises [TypeError]
    exactly when [nextKeys] has a single key, [insertedKeys] has a key at
    that key's frame, and all the later keys of [insertedKeys], of which
    there is one at least, have greater frames. *)
Theorem addKeyframes_TypeError_iff (h : heap) (A B A' B' : list ref)
        (a0 b0 : ref) :
  A = a0 :: A' -> B = b0 :: B' ->
  frame (h a0) <= frame (h b0) ->
  (fst (addKeyframes (mkState h A B)) = Raised TypeError <->
   B' = [] /\
   exists pre b s suf,
     A = pre ++ b :: s :: suf /\
     frame (h b) == frame (h b0) /\
     Forall (fun k => frame (h b0) < frame (h k)) (s :: suf)).
Proof.
  intros EA EB H0. split.
  - intros T.
    destruct (addKeyframes_TypeError_inv h A B T)
      as (b0' & ov & key & EB' & F & Ik & Ek).
    rewrite EB in EB'. injection EB' as <- ->.
    split; [reflexivity |].
    destruct (findOverlap_Ok_inv h A B ov F)
      as [-> | (a1 & A1 & b1 & B1 & pre & b & s & suf
                & _ & EB1 & _ & E & -> & Hb & Hs)];
      [destruct Ik |].
    rewrite EB in EB1. injection EB1 as <- _.
    exists pre, b, s, suf. split; [exact E |]. split; [| exact Hs].
    destruct Ik as [<- | Ik]; [symmetry; exact Ek |].
    exfalso. rewrite Forall_forall in Hs. specialize (Hs key Ik).
    rewrite Ek in Hs. apply (Qlt_irrefl _ Hs).
  - intros (-> & pre & b & s & suf & E & Eb & Hs).
    assert (F : findOverlap h A B = Ok (b :: s :: suf)).
    { rewrite E, EB.
      apply (findOverlap_of_split h pre (s :: suf) [] b b0).
      - intros a1 A1 E1. rewrite <- E, EA in E1. injection E1 as <- _.
        exact H0.
      - rewrite Eb. apply Qle_refl.
      - exact Hs. }
    unfold addKeyframes, interpolated. cbn [st_heap insertedKeys nextKeys].
    rewrite F. cbn [bind].
    assert (I1 : exists nv, interpolate h (b :: s :: suf) B = Ok nv).
    { destruct (interpolate h (b :: s :: suf) B) as [nv | e] eqn:I;
        [eauto |].
      exfalso. rewrite (interpolate_raises _ _ _ e I) in I.
      apply interpolate_raises_iff in I. destruct I as (key & _ & N).
      apply interval_NoneValue_iff in N. destruct N as (k & C & _).
      discriminate C. }
    destruct I1 as (nv & ->). cbn [bind].
    assert (I2 : interpolate h B (b :: s :: suf) = Raise TypeError).
    { apply interpolate_raises_iff. exists b. split; [left; reflexivity |].
      apply interval_NoneValue_iff. exists b0. split; [exact EB |].
      symmetry. exact Eb. }
    rewrite I2. reflexivity.
Qed.

Lemma addKeyframes_TypeError_iff_witness :
  fst (addKeyframes single_next_state) = Raised TypeError.
Proof.
  apply (addKeyframes_TypeError_iff (st_heap single_next_state)
           [0; 1]%nat [2]%nat [1]%nat [] 0%nat 2%nat eq_refl eq_refl).
  - vm_compute; discriminate.
  - split; [reflexivity |].
    exists [], 0%nat, 1%nat, []. split; [reflexivity |].
    split; [reflexivity |]. repeat constructor.
Defined.

(** X13.  Under the order precondition, and whether the lists are sorted or
    not, [addKeyframes] returns when [nextKeys] has two keys or more. *)
Theorem addKeyframes_returns (h : heap) (A B A' B' : list ref) (a0 b0 : ref) :
  A = a0 :: A' -> B = b0 :: B' ->
  frame (h a0) <= frame (h b0) ->
  (2 <= length B)%nat ->
  fst (addKeyframes (mkState h A B)) = Returned.
Proof.
  intros EA EB H0 L.
  destruct (fst (addKeyframes (mkState h A B))) as [| [|]] eqn:O.
  - reflexivity.
  - exfalso. apply addKeyframes_ValueError in O.
    cbn [st_heap insertedKeys nextKeys] in O.
    apply findOverlap_raises in O.
    destruct O as [_ (k1 & l1 & k2 & l2 & E1 & E2 & G)].
    rewrite EA in E1. rewrite EB in E2.
    injection E1 as <- _. injection E2 as <- _.
    apply (Qlt_not_le _ _ G H0).
  - exfalso.
    destruct (addKeyframes_TypeError_inv h A B O) as (k & _ & _ & -> & _).
    simpl in L. lia.
Qed.

Lemma addKeyframes_returns_witness :
  fst (addKeyframes demo_state) = Returned.
Proof.
  apply (addKeyframes_returns (heap_of demo_objs) [0; 1; 2; 3]%nat
                              [4; 5; 6; 7]%nat [1; 2; 3]%nat [5; 6; 7]%nat
                              0%nat 4%nat eq_refl eq_refl).
  - vm_compute; discriminate.
  - simpl. lia.
Defined.

(** ** addKeyframes: the order of the merged list *)

(** X14.  In the merged list the keys at one frame keep their order: those
    of [insertedKeys] in their order, then those of [nextKeys] in theirs. *)
Theorem addKeyframes_ties (h : heap) (A B : list ref) (st' : state) (f : Q) :
  addKeyframes (mkState h A B) = (Returned, st') ->
  filter (fun r => Qeq_bool (frame (h r)) f) (insertedKeys st') =
  filter (fun r => Qeq_bool (frame (h r)) f) A ++
  filter (fun r => Qeq_bool (frame (h r)) f) B.
Proof.
  intros Run.
  destruct (addKeyframes_Returned_inv h A B st' Run)
    as (ov & iv & nv & _ & _ & _ & ->).
  cbn [insertedKeys].
  rewrite <- filter_app.
  assert (Fr : forall r,
             Qeq_bool (frame (h r)) f =
             Qeq_bool (frame (add_values (add_values h ov iv) B nv r)) f).
  { intros r. rewrite !add_values_frame. reflexivity. }
  rewrite !(filter_ext _ _ Fr).
  apply sort_by_frame_stable.
Qed.

Lemma addKeyframes_ties_witness :
  filter (fun r => Qeq_bool (frame (st_heap touching_state r)) 5)
         (insertedKeys (snd (addKeyframes touching_state))) =
  filter (fun r => Qeq_bool (frame (st_heap touching_state r)) 5) [0; 1]%nat ++
  filter (fun r => Qeq_bool (frame (st_heap touching_state r)) 5) [2; 3]%nat.
Proof.
  apply (addKeyframes_ties (st_heap touching_state) [0; 1]%nat [2; 3]%nat).
  reflexivity.
Defined.

Lemma insert_key_first (h : heap) (k : ref) (l : list ref) :
  Forall (fun y => frame (h k) <= frame (h y)) l ->
  insert_key h k l = k :: l.
Proof.
  intros H. destruct l as [| y l]; [reflexivity |].
  apply Forall_inv in H. apply Qle_bool_iff in H.
  cbn [insert_key]. rewrite H. reflexivity.
Qed.

(** X15.  For sorted lists whose first frames are in order, a call that
    returns leaves the first key of [insertedKeys] in the first place, so
    the order precondition of a later call is judged on the same key. *)
Theorem addKeyframes_keeps_first (h : heap) (A' B : list ref) (a0 : ref)
        (st' : state) :
  is_sorted h (a0 :: A') = true ->
  is_sorted h B = true ->
  (forall b0 B', B = b0 :: B' -> frame (h a0) <= frame (h b0)) ->
  addKeyframes (mkState h (a0 :: A') B) = (Returned, st') ->
  exists tl, insertedKeys st' = a0 :: tl /\
             frame (st_heap st' a0) = frame (h a0).
Proof.
  intros SA SB H0 Run.
  destruct (addKeyframes_Returned_inv h (a0 :: A') B st' Run)
    as (ov & iv & nv & _ & _ & _ & ->).
  cbn [insertedKeys st_heap].
  set (h2 := add_values (add_values h ov iv) B nv).
  exists (sort_by_frame h2 (A' ++ B)). split.
  - change (sort_by_frame h2 ((a0 :: A') ++ B))
      with (insert_key h2 a0 (sort_by_frame h2 (A' ++ B))).
    apply insert_key_first. apply Forall_forall. intros y Iy.
    apply (Permutation_in _ (sort_by_frame_perm h2 (A' ++ B))) in Iy.
    unfold h2. rewrite !add_values_frame.
    apply in_app_or in Iy. destruct Iy as [Iy | Iy].
    + pose proof (is_sorted_head_le h _ _ SA) as Hall.
      rewrite Forall_forall in Hall. apply Hall, Iy.
    + destruct B as [| b0 B']; [destruct Iy |].
      specialize (H0 b0 B' eq_refl).
      destruct Iy as [<- | Iy]; [exact H0 |].
      pose proof (is_sorted_head_le h _ _ SB) as Hall.
      rewrite Forall_forall in Hall.
      eapply Qle_trans; [exact H0 | apply Hall, Iy].
  - unfold h2. rewrite !add_values_frame. reflexivity.
Qed.

Lemma addKeyframes_keeps_first_witness :
  exists tl,
    insertedKeys (snd (addKeyframes demo_state)) = 0%nat :: tl /\
    frame (st_heap (snd (addKeyframes demo_state)) 0%nat) =
      frame (heap_of demo_objs 0%nat).
Proof.
  apply (addKeyframes_keeps_first (heap_of demo_objs) [1; 2; 3]%nat
                                  [4; 5; 6; 7]%nat 0%nat).
  - reflexivity.
  - reflexivity.
  - intros b0 B' E. injection E as <- _. vm_compute. discriminate.
  - reflexivity.
Defined.

(** ** Reading an ascending curve at one of its keys *)



